(** * Stiefel_diff_tools: derivatives of QR, matrix exponential, Stiefel
    exponential and SVD along linear matrix curves

    Shallow embedding of [Stiefel_log_general_metric/SciPy/Stiefel_diff_tools.py]
    in exact arithmetic: array entries range over a real field [F], arrays
    are MathComp matrices whose shape is part of their type, and the routines
    of the dense linear-algebra library ([linalg.qr], [linalg.solve_triangular],
    [linalg.expm]) are parameters of the development, described by the
    contracts their callers rely on. *)

Set Warnings "-notation-overridden,-ambiguous-paths,-notation-incompatible-prefix,-rewrite-rw".
From HB Require Import structures.
From mathcomp Require Import boot order algebra.

Set Implicit Arguments.
Unset Strict Implicit.
Unset Printing Implicit Defensive.

Import Order.TTheory GRing.Theory Num.Theory.
Local Open Scope ring_scope.

(** ** Exceptions, outcomes and calls *)

(** The exceptions a call can end with: [LinAlgError] is raised by
    [linalg.solve_triangular] on a singular factor, [ZeroDivisionError] by a
    division of Python floats, [ValueError] by a library routine handed an
    array of the wrong shape, [UnboundLocalError] by the use of a local name
    that no assignment has bound. *)
Inductive exn : Type :=
  LinAlgError | ZeroDivisionError | ValueError | UnboundLocalError.

Inductive outcome (T : Type) : Type :=
  | Return of T
  | Raise of exn.

Arguments Raise {T} e.

Definition fails T (o : outcome T) : bool :=
  if o is Raise _ then true else false.

(** The calls to the linear-algebra library, in the order they are made. *)
Inductive call : Type :=
  | Call_qr of nat & nat
  | Call_solve_triangular of nat
  | Call_expm of nat.

(** A call runs in a frame: the arrays its parameters refer to (what the caller
    passed, by reference) and the log of library calls made so far. *)
Record frame (W : Type) : Type := Frame { args : W; calls : seq call }.

Definition M (W T : Type) : Type := frame W -> outcome T * frame W.

Section Monad.
Variables W : Type.

Definition ret T (x : T) : M W T := fun h => (Return x, h).

Definition raise T (e : exn) : M W T := fun h => (Raise e, h).

Definition bind T U (m : M W T) (k : T -> M W U) : M W U :=
  fun h => match m h with
           | (Return x, h') => k x h'
           | (Raise e, h') => (Raise e, h')
           end.

Definition read T (f : W -> T) : M W T := fun h => (Return (f (args h)), h).

Definition write (f : W -> W) : M W unit :=
  fun h => (Return tt, Frame (f (args h)) (calls h)).

Definition tell (c : call) : M W unit :=
  fun h => (Return tt, Frame (args h) (rcons (calls h) c)).

(** Calling a function with the arrays [w']: the callee runs on them, the
    caller's own arrays are out of its reach, the log is shared.  The callee's
    view of [w'] ends with the call. *)
Definition call_with W' T (w' : W') (m : M W' T) : M W T :=
  fun h => let: (o, h') := m (Frame w' (calls h)) in
           (o, Frame (args h) (calls h')).

End Monad.

Arguments ret {W T} x.
Arguments raise {W T} e.
Arguments read {W T} f.
Arguments tell {W} c.
Arguments call_with {W W' T} w' m.

Notation "x <-- m ;; k" := (bind m (fun x => k))
  (at level 100, m at next level, right associativity,
   format "'[v' x  <--  m  ;; '/' k ']'").
Notation "m ;;; k" := (bind m (fun _ => k))
  (at level 100, right associativity).

(** What a call on the arrays [w] returns, leaves in them, and logs. *)
Definition result W T (m : M W T) (w : W) : outcome T := (m (Frame w [::])).1.
Definition after W T (m : M W T) (w : W) : W := args (m (Frame w [::])).2.
Definition called W T (m : M W T) (w : W) : seq call :=
  calls (m (Frame w [::])).2.

(** ** The four routines *)

Section StiefelDiffTools.

Variable F : realFieldType.

(** *** The linear-algebra library *)

(** [linalg.qr(a, mode='economic')] on an n x p array with p <= n: the
    factors Q (n x p) and R (p x p). *)
Variable qr : forall n p : nat, 'M[F]_(n, p) -> 'M[F]_(n, p) * 'M[F]_(p, p).

(** What [linalg.qr(a, overwrite_a=True)] leaves in the storage of [a]. *)
Variable qr_leaves : forall n p : nat, 'M[F]_(n, p) -> 'M[F]_(n, p).

(** [linalg.solve_triangular(a, b)]: the solution of a x = b read off the
    upper triangle of [a], or [LinAlgError] when [a] is singular. *)
Variable solve_triangular :
  forall p : nat, 'M[F]_p -> 'M[F]_p -> outcome 'M[F]_p.

(** [linalg.expm(a)]. *)
Variable expm : forall n : nat, 'M[F]_n -> 'M[F]_n.

(** *** Stiefel_diff_QR *)

(** The arrays [Stiefel_diff_QR(A0, V)] is called on. *)
Record QR_args (n p : nat) : Type :=
  QRArgs { arg_A0 : 'M[F]_(n, p); arg_V : 'M[F]_(n, p) }.

(** [linalg.qr(A0, overwrite_a=True, mode='economic', pivoting=False)]. *)
Definition linalg_qr_overwrite n p : M (QR_args n p) ('M[F]_(n, p) * 'M[F]_(p, p)) :=
  A0 <-- read (@arg_A0 n p) ;;
  tell (Call_qr n p) ;;;
  write (fun w => QRArgs (qr_leaves A0) (arg_V w)) ;;;
  ret (qr A0).

Arguments linalg_qr_overwrite n p : clear implicits.

(** [linalg.solve_triangular(R, b)] on the factor of an n x p array: for
    n < p the economic factor is not square and the routine refuses it. *)
Definition linalg_solve_triangular W (n p : nat) (R b : 'M[F]_p) : M W 'M[F]_p :=
  tell (Call_solve_triangular p) ;;;
  if (p <= n)%N then (fun h => (solve_triangular R b, h))
  else raise ValueError.

Arguments linalg_solve_triangular {W} n {p} R b.

(** [for i in range(X.shape[0]): for j in range(i): X[i,j] = 0.0] *)
Definition zero_below_diagonal p (X : 'M[F]_p) : 'M[F]_p :=
  \matrix_(i, j) if (j < i)%N then 0 else X i j.

(** [select_lower(M)]: a zero array filled with the entries of [M] below the
    diagonal. *)
Definition select_lower p (X : 'M[F]_p) : 'M[F]_p :=
  \matrix_(i, j) if (j < i)%N then X i j else 0.

Definition Stiefel_diff_QR n p :
    M (QR_args n p) ('M[F]_(n, p) * 'M[F]_(n, p) * 'M[F]_p * 'M[F]_p) :=
  QR <-- linalg_qr_overwrite n p ;;
  let: (Q, R) := QR in
  Rinv <-- linalg_solve_triangular n R 1%:M ;;
  let Rinv := zero_below_diagonal Rinv in
  V <-- read (@arg_V n p) ;;
  let QTV := Q^T *m V in
  let D := QTV *m Rinv in
  let D := select_lower D in
  let D := D - D^T in
  let dR := QTV - D *m R in
  let dR := zero_below_diagonal dR in
  let dQ := V - Q *m QTV in
  let dQ := dQ *m Rinv + Q *m D in
  ret (Q, dQ, R, dR).

Arguments Stiefel_diff_QR n p : clear implicits.

(** *** diff_expm *)

Record expm_args (n : nat) : Type :=
  ExpmArgs { arg_M : 'M[F]_n; arg_dM : 'M[F]_n }.

Definition linalg_expm W n (A : 'M[F]_n) : M W 'M[F]_n :=
  tell (Call_expm n) ;;;
  ret (expm A).

Arguments linalg_expm {W n} A.

Definition diff_expm n : M (expm_args n) ('M[F]_n * 'M[F]_n) :=
  M_ <-- read (@arg_M n) ;;
  dM <-- read (@arg_dM n) ;;
  let upper := row_mx M_ dM in
  let lower := row_mx (0 : 'M[F]_n) M_ in
  let Aux := col_mx upper lower in
  dexpm <-- linalg_expm Aux ;;
  let expM := ulsubmx dexpm in
  let dexpM := ursubmx dexpm in
  ret (expM, dexpM).

Arguments diff_expm n : clear implicits.

(** *** Stiefel_diff_exp *)

Record exp_args (n p : nat) : Type :=
  ExpArgs { arg_U : 'M[F]_(n, p); arg_Delta : 'M[F]_(n, p);
            arg_V' : 'M[F]_(n, p) }.

(** Division of two Python floats. *)
Definition pydiv W (x y : F) : M W F :=
  if y == 0 then raise ZeroDivisionError else ret (x / y).

Arguments pydiv {W} x y.

(** The literal [1.0e-10]. *)
Definition tol : F := (10%:R ^+ 10)^-1.

Definition Stiefel_diff_exp n p (metric_alpha : F) :
    M (exp_args n p) 'M[F]_(n, p) :=
  U <-- read (@arg_U n p) ;;
  Delta <-- read (@arg_Delta n p) ;;
  V <-- read (@arg_V' n p) ;;
  let A0 := U^T *m Delta in
  let A0 := 2^-1 *: (A0 - A0^T) in
  let X0 := Delta - U *m A0 in
  let dA0 := U^T *m V in
  let dA0 := 2^-1 *: (dA0 - dA0^T) in
  let Y0 := V - U *m dA0 in
  QR <-- call_with (QRArgs X0 Y0) (Stiefel_diff_QR n p) ;;
  let: (Q, dQ, R, dR) := QR in
  v <-- pydiv 1 (metric_alpha + 1) ;;
  let upper := row_mx (v *: A0) (- R^T) in
  let lower := row_mx R (0 : 'M[F]_p) in
  let M_ := col_mx upper lower in
  let upper := row_mx (v *: dA0) (- dR^T) in
  let lower := row_mx dR (0 : 'M[F]_p) in
  let dM := col_mx upper lower in
  E <-- call_with (ExpmArgs M_ dM) (diff_expm (p + p)) ;;
  let: (expM, dexpM) := E in
  let expM_I_0 := lsubmx expM in
  let dexpM_I_0 := lsubmx dexpM in
  EA <-- (if `|metric_alpha| > tol then
            mu <-- pydiv metric_alpha (metric_alpha + 1) ;;
            EA <-- call_with (ExpmArgs (mu *: A0) (mu *: dA0)) (diff_expm p) ;;
            ret (Some EA)
          else ret None) ;;
  if (`|metric_alpha| > tol) && (`|metric_alpha + 1| > tol) then
    if EA is Some (expA, dexpA) then
      ret (dQ *m (dsubmx expM_I_0 *m expA)
           + U *m (usubmx dexpM_I_0 *m expA)
           + Q *m (dsubmx dexpM_I_0 *m expA)
           + U *m (usubmx expM_I_0 *m dexpA)
           + Q *m (dsubmx expM_I_0 *m dexpA))
    else raise UnboundLocalError
  else
    ret (dQ *m dsubmx expM_I_0
         + U *m usubmx dexpM_I_0
         + Q *m dsubmx dexpM_I_0).

Arguments Stiefel_diff_exp n p metric_alpha : clear implicits.

(** *** Stiefel_diff_SVD *)

(** [U] is n x p, [S] a p-vector, and [V] has m rows and at least the p
    columns the routine reads, here p + r of them. *)
Record SVD_args (n m p r : nat) : Type :=
  SVDArgs { arg_Y : 'M[F]_(n, m); arg_dY : 'M[F]_(n, m);
            arg_U' : 'M[F]_(n, p); arg_S : 'rV[F]_p;
            arg_V'' : 'M[F]_(m, p + r) }.

(** Division of numpy floats and arrays.  It never raises; where the divisor
    is zero numpy stores an infinity or a NaN (and warns), values the field
    does not have: there the quotient of the model carries no information,
    and the statements about the values of [Stiefel_diff_SVD] are made where
    no divisor is zero. *)
Definition npdiv (x y : F) : F := x / y.

Definition Stiefel_diff_SVD n m p r :
    M (SVD_args n m p r)
      ('M[F]_(n, p) * 'M[F]_p * 'M[F]_(n, p) * 'M[F]_p * 'rV[F]_p * 'M[F]_(m, p)) :=
  dY <-- read (@arg_dY n m p r) ;;
  U <-- read (@arg_U' n m p r) ;;
  S <-- read (@arg_S n m p r) ;;
  V <-- read (@arg_V'' n m p r) ;;
  let S_inv := map_mx (npdiv 1) S in
  let dS := \row_k ((col k U)^T *m (dY *m col (lshift r k) V)) 0 0 in
  let VSinv := lsubmx V *m diag_mx S_inv in
  let dYVSinv := dY *m VSinv in
  let UTdYVSinv := U^T *m dYVSinv in
  let dU_bot := dYVSinv - U *m UTdYVSinv in
  let UTdY := U^T *m dY in
  let C := UTdY *m lsubmx V in
  let entry (j k : 'I_p) :=
    npdiv (S 0 j * C j k + S 0 k * C k j) ((S 0 k + S 0 j) * (S 0 k - S 0 j)) in
  let Alpha_p := \matrix_(j, k) if (j < k)%N then entry j k
                                else if (k < j)%N then - entry k j else 0 in
  let dV := lsubmx V *m Alpha_p in
  let dV := if (m == p + r)%N && (p < m)%N then
              let C := UTdY *m rsubmx V in
              let Alpha_mp := \matrix_(j, k) npdiv (C k j) (S 0 k) in
              dV + rsubmx V *m Alpha_mp
            else dV in
  let Alpha := Alpha_p in
  let X := (diag_mx S *m Alpha - diag_mx dS) *m diag_mx S_inv in
  let A := UTdYVSinv + X in
  let A := 2^-1 *: (A - A^T) in
  let dU := dYVSinv + U *m X in
  ret (dU_bot, A, dU, Alpha, dS, dV).

Arguments Stiefel_diff_SVD n m p r : clear implicits.

End StiefelDiffTools.

Arguments QRArgs {F n p} arg_A0 arg_V.
Arguments ExpmArgs {F n} arg_M arg_dM.
Arguments ExpArgs {F n p} arg_U arg_Delta arg_V'.
Arguments SVDArgs {F n m p r} arg_Y arg_dY arg_U' arg_S arg_V''.
Arguments Stiefel_diff_QR {F} qr qr_leaves solve_triangular n p.
Arguments diff_expm {F} expm n.
Arguments Stiefel_diff_exp {F} qr qr_leaves solve_triangular expm n p
  metric_alpha.
Arguments Stiefel_diff_SVD {F} n m p r.
Arguments tol {F}.

(** ** Vocabulary of the statements *)

Section Vocabulary.

Variable F : realFieldType.

Definition upper_triangular p (R : 'M[F]_p) : bool := is_trig_mx R^T.

Section Contracts.

Variable qr : forall n p : nat, 'M[F]_(n, p) -> 'M[F]_(n, p) * 'M[F]_(p, p).
Variable solve_triangular :
  forall p : nat, 'M[F]_p -> 'M[F]_p -> outcome 'M[F]_p.

(** What the callers of [linalg.qr] rely on, at the array [A]: the factors
    multiply back to [A], Q has orthonormal columns, R is upper triangular. *)
Definition qr_contract n p (A : 'M[F]_(n, p)) : Prop :=
  [/\ A = (qr A).1 *m (qr A).2,
      ((qr A).1)^T *m (qr A).1 = 1%:M
    & upper_triangular (qr A).2].

(** What the callers of [linalg.solve_triangular] rely on: on an upper
    triangular [R] it solves R X = B when R is invertible and raises
    [LinAlgError] when it is not. *)
Definition solve_triangular_contract : Prop :=
  forall p (R B : 'M[F]_p), upper_triangular R ->
    if R \in unitmx
    then exists2 X, solve_triangular R B = Return X & R *m X = B
    else solve_triangular R B = Raise LinAlgError.

End Contracts.

(** The values [Stiefel_diff_QR] computes from the factors Q, R, the array
    X that the triangular solve returned, and V. *)
Definition QR_derivative n p (Q : 'M[F]_(n, p)) (R X : 'M[F]_p)
    (V : 'M[F]_(n, p)) : 'M[F]_(n, p) * 'M[F]_(n, p) * 'M[F]_p * 'M[F]_p :=
  let Rinv := zero_below_diagonal X in
  let QTV := Q^T *m V in
  let L := select_lower (QTV *m Rinv) in
  let D := L - L^T in
  (Q, (V - Q *m QTV) *m Rinv + Q *m D, R,
   zero_below_diagonal (QTV - D *m R)).

(** skew(X) = (X - X^T)/2 *)
Definition skew p (X : 'M[F]_p) : 'M[F]_p := 2^-1 *: (X - X^T).

(** The blocks [[v A, -R^T], [R, 0]] *)
Definition skew_block p (v : F) (A R : 'M[F]_p) : 'M[F]_(p + p) :=
  block_mx (v *: A) (- R^T) R 0.

(** The combination of step 2, for the general alpha-metric and for the
    canonical one. *)
Definition general_combination n p (U Q dQ : 'M[F]_(n, p))
    (expM dexpM : 'M[F]_(p + p)) (expA dexpA : 'M[F]_p) : 'M[F]_(n, p) :=
  dQ *m (dsubmx (lsubmx expM) *m expA)
  + U *m (usubmx (lsubmx dexpM) *m expA)
  + Q *m (dsubmx (lsubmx dexpM) *m expA)
  + U *m (usubmx (lsubmx expM) *m dexpA)
  + Q *m (dsubmx (lsubmx expM) *m dexpA).

Definition canonical_combination n p (U Q dQ : 'M[F]_(n, p))
    (expM dexpM : 'M[F]_(p + p)) : 'M[F]_(n, p) :=
  dQ *m dsubmx (lsubmx expM)
  + U *m usubmx (lsubmx dexpM)
  + Q *m dsubmx (lsubmx dexpM).

(** What the call computes once the QR step has returned Q, dQ, R, dR and
    alpha + 1 is not zero. *)
Definition exp_derivative (expm : forall n : nat, 'M[F]_n -> 'M[F]_n)
    n p (alpha : F) (U : 'M[F]_(n, p)) (A0 dA0 : 'M[F]_p)
    (Q dQ : 'M[F]_(n, p)) (R dR : 'M[F]_p) : 'M[F]_(n, p) :=
  let v := 1 / (alpha + 1) in
  let M_ := skew_block v A0 R in
  let dM := skew_block v dA0 dR in
  let E := expm _ (block_mx M_ dM 0 M_) in
  let mu := alpha / (alpha + 1) in
  let EA := expm _ (block_mx (mu *: A0) (mu *: dA0) 0 (mu *: A0)) in
  if (`|alpha| > tol) && (`|alpha + 1| > tol)
  then general_combination U Q dQ (ulsubmx E) (ursubmx E)
         (ulsubmx EA) (ursubmx EA)
  else canonical_combination U Q dQ (ulsubmx E) (ursubmx E).

(** The library calls of one run: the QR step, the exponential of the
    4p x 4p block matrix and, off the canonical metric, the exponential of
    the 2p x 2p one. *)
Definition exp_calls (n p : nat) (alpha : F) : seq call :=
  [:: Call_qr n p; Call_solve_triangular p; Call_expm (p + p + (p + p))]
  ++ (if `|alpha| > tol then [:: Call_expm (p + p)] else [::]).

(** Partial sums of the exponential series, sum_{k < N} A^k / k!. *)
Definition expm_series n (N : nat) (A : 'M[F]_n) : 'M[F]_n :=
  \sum_(k < N) (k`!%:R)^-1 *: A ^+ k.

(** The derivative of X |-> X^k at M in the direction E,
    sum_{i < k} M^i E M^(k-1-i), by the product rule. *)
Fixpoint pow_derivative n (M_ E : 'M[F]_n) (k : nat) : 'M[F]_n :=
  if k is k'.+1 then pow_derivative M_ E k' *m M_ + M_ ^+ k' *m E else 0.

(** The exponential series differentiated term by term: the partial sums
    of the Frechet derivative L(M, E) = sum_k (1/k!) sum_{i<k} M^i E M^(k-1-i)
    of the exponential. *)
Definition expm_series_derivative n (N : nat) (M_ E : 'M[F]_n) : 'M[F]_n :=
  \sum_(k < N) (k`!%:R)^-1 *: pow_derivative M_ E k.

(** The second-order remainder of (M + t E)^k, a polynomial in t. *)
Fixpoint pow_remainder n (M_ E : 'M[F]_n) (k : nat) : 'M[{poly F}]_n :=
  if k is k'.+1
  then pow_remainder M_ E k' *m (map_mx polyC M_ + 'X *: map_mx polyC E)
       + map_mx polyC (pow_derivative M_ E k' *m E)
  else 0.

Definition expm_series_remainder n (N : nat) (M_ E : 'M[F]_n) :
    'M[{poly F}]_n :=
  \sum_(k < N) ((k`!%:R)^-1)%:P *: pow_remainder M_ E k.

(** Entrywise convergence of a sequence of matrices. *)
Definition mx_cvg m n (u : nat -> 'M[F]_(m, n)) (l : 'M[F]_(m, n)) : Prop :=
  forall eps : F, 0 < eps ->
  exists N0 : nat, forall N, (N0 <= N)%N ->
  forall i j, `|u N i j - l i j| < eps.

(** What the callers of [linalg.expm] rely on, at the array [A]: the value
    is the sum of the exponential series. *)
Definition expm_contract (expm : forall n : nat, 'M[F]_n -> 'M[F]_n)
    n (A : 'M[F]_n) : Prop :=
  mx_cvg (fun N => expm_series N A) (expm n A).

End Vocabulary.

(** *** The spectrum handed to Stiefel_diff_SVD

    [Stiefel_diff_SVD] divides by S[k] and by (S[k]+S[j])(S[k]-S[j]).  The
    statements about the values it returns are made where no divisor is
    zero. *)

Section SpectrumVocabulary.

Variable F : realFieldType.

(** No singular value is zero: the divisors of [1.0/S] and of Alpha_mp. *)
Definition nonzero_spectrum p (S : 'rV[F]_p) : bool :=
  [forall k, S 0 k != 0].

(** No divisor (S[k]+S[j])(S[k]-S[j]) of Alpha_p, j < k, is zero. *)
Definition separated_spectrum p (S : 'rV[F]_p) : bool :=
  [forall j : 'I_p, forall k : 'I_p,
     (j < k)%N ==> ((S 0 k + S 0 j) * (S 0 k - S 0 j) != 0)].

End SpectrumVocabulary.

(** ** Reference collaborators

    Exact stand-ins for the library routines, on the arrays where the
    factors stay in the field, and the arrays of the worked examples. *)

Section ReferenceCollaborators.

Variable F : realFieldType.

(** QR of an array whose first p rows are upper triangular and whose other
    rows are zero: Q is the first p columns of the identity. *)
Definition ref_qr n p (A : 'M[F]_(n, p)) : 'M[F]_(n, p) * 'M[F]_p :=
  (pid_mx p, (pid_mx p)^T *m A).

(** LAPACK forms the economic Q in the storage of [a]. *)
Definition ref_qr_leaves n p (A : 'M[F]_(n, p)) : 'M[F]_(n, p) :=
  (ref_qr A).1.

Definition ref_solve_triangular p (R B : 'M[F]_p) : outcome 'M[F]_p :=
  if R \in unitmx then Return (invmx R *m B) else Raise LinAlgError.

(** The exponential series cut after the n-th power: the exponential of a
    nilpotent n x n matrix. *)
Definition ref_expm n (A : 'M[F]_n) : 'M[F]_n := expm_series n.+1 A.

(** The 2 x 2 array [[a, b], [c, d]]. *)
Definition mx22 (a b c d : F) : 'M[F]_2 :=
  \matrix_(i, j) if (i == 0 :> nat) then (if (j == 0 :> nat) then a else b)
                 else (if (j == 0 :> nat) then c else d).

(** Two singular values at distance e/2, and a spectrum with a zero. *)
Definition near_pair (e : F) : 'rV[F]_2 :=
  \row_k if (k == 0 :> nat) then 1 else 1 + e / 2.

Definition zero_pair : 'rV[F]_2 := \row_k if (k == 0 :> nat) then 1 else 0.

(** The spectrum (2, 1). *)
Definition two_one : 'rV[F]_2 := \row_k if (k == 0 :> nat) then 2 else 1.

End ReferenceCollaborators.

Section ExampleArrays.

Definition T_ex : 'M[rat]_2 := mx22 2 1 0 3.
Definition K_ex : 'M[rat]_2 := mx22 0 1 (- 1) 0.
Definition D_ex : 'M[rat]_2 := mx22 2 0 0 3.
Definition W_ex : 'M[rat]_2 := mx22 1 2 3 4.
Definition N_ex : 'M[rat]_2 := mx22 0 1 0 0.

(** A 4 x 2 array of full column rank and a direction. *)
Definition A0_ex : 'M[rat]_(2 + 2, 2) := col_mx T_ex 0.
Definition V_ex : 'M[rat]_(2 + 2, 2) := col_mx W_ex W_ex.

(** A point of St(4, 2) and a tangent vector at it: U^T Delta = K_ex is
    skew. *)
Definition U_ex : 'M[rat]_(2 + 2, 2) := col_mx 0 1%:M.
Definition Delta_ex : 'M[rat]_(2 + 2, 2) := col_mx T_ex K_ex.

(** Another point, and a Delta that is not tangent there:
    U^T Delta = D_ex + K_ex is not skew. *)
Definition U_ex' : 'M[rat]_(2 + 2, 2) := col_mx 1%:M 0.
Definition Delta_ex' : 'M[rat]_(2 + 2, 2) := col_mx (D_ex + K_ex) 0.

(** The arrays of the QR step and what it returns, for the two inputs. *)
Definition QR_args_ex (U Delta V : 'M[rat]_(2 + 2, 2)) : QR_args rat (2 + 2) 2 :=
  let A0 := 2^-1 *: (U^T *m Delta - (U^T *m Delta)^T) in
  let dA0 := 2^-1 *: (U^T *m V - (U^T *m V)^T) in
  QRArgs (Delta - U *m A0) (V - U *m dA0).

Definition QR_ex : 'M[rat]_(2 + 2, 2) * 'M[rat]_(2 + 2, 2) * 'M[rat]_2 * 'M[rat]_2 :=
  QR_derivative (col_mx 1%:M 0) T_ex (invmx T_ex *m 1%:M)
    (arg_V (QR_args_ex U_ex Delta_ex V_ex)).

Definition QR_ex' : 'M[rat]_(2 + 2, 2) * 'M[rat]_(2 + 2, 2) * 'M[rat]_2 * 'M[rat]_2 :=
  QR_derivative (col_mx 1%:M 0) D_ex (invmx D_ex *m 1%:M)
    (arg_V (QR_args_ex U_ex' Delta_ex' V_ex)).

End ExampleArrays.

(** ** Upper-triangular matrices *)

Section UpperTriangular.

Variable F : realFieldType.

Lemma upper_triangularP p (R : 'M[F]_p) :
  reflect (forall i j : 'I_p, (j < i)%N -> R i j = 0) (upper_triangular R).
Proof.
apply: (iffP is_trig_mxP) => H i j ltji; first by rewrite -(H j i ltji) mxE.
by rewrite mxE H.
Qed.

Arguments upper_triangularP {p R}.

Lemma zero_below_diagonal_id p (X : 'M[F]_p) :
  upper_triangular X -> zero_below_diagonal X = X.
Proof.
move/upper_triangularP=> Xu; apply/matrixP=> i j; rewrite mxE.
by case: ifP => // /Xu.
Qed.

Lemma zero_below_diagonal_upper p (X : 'M[F]_p) :
  upper_triangular (zero_below_diagonal X).
Proof. by apply/upper_triangularP=> i j ltji; rewrite mxE ltji. Qed.

Lemma upper_triangular_mul p (A B : 'M[F]_p) :
  upper_triangular A -> upper_triangular B -> upper_triangular (A *m B).
Proof.
move=> /upper_triangularP Au /upper_triangularP Bu.
apply/upper_triangularP=> i j ltji; rewrite mxE big1 // => k _.
have [ltki|leik] := ltnP k i; first by rewrite Au ?mul0r.
by rewrite Bu ?mulr0 //; apply: leq_trans leik.
Qed.

Lemma upper_triangular_diag p (R : 'M[F]_p) :
  upper_triangular R -> R \in unitmx -> forall i, R i i != 0.
Proof.
move=> Ru; rewrite unitmxE -det_tr (det_trig Ru) unitfE => /prodf_neq0 nz i.
by have := nz i isT; rewrite mxE.
Qed.

(** The inverse of an invertible upper-triangular matrix is upper
    triangular: in column j of R X = 1 the rows below the diagonal are
    settled from the last one upwards. *)
Lemma upper_triangular_inverse p (R X : 'M[F]_p) :
  upper_triangular R -> R *m X = 1%:M -> upper_triangular X.
Proof.
move=> Ru RX; have [Runit _] := mulmx1_unit RX.
apply/upper_triangularP=> i j.
have [m] := ubnP (p - i)%N; elim: m i => // m IH i; rewrite ltnS => le_m ltji.
have Rii := upper_triangular_diag Ru Runit i.
have: (R *m X) i j = 0.
  by rewrite RX mxE; case: eqP ltji => // ->; rewrite ltnn.
rewrite mxE (bigD1 i) //= big1 ?addr0 => [k neq_ki|]; last first.
  by move/eqP; rewrite mulf_eq0 (negPf Rii) /= => /eqP.
have [ltki|leik] := ltnP k i.
  by rewrite (upper_triangularP Ru) ?mul0r.
have ltik : (i < k)%N by rewrite ltn_neqAle leik andbT eq_sym.
rewrite IH ?mulr0 //; last exact: ltn_trans ltji ltik.
by apply: leq_trans le_m; apply: ltn_sub2l.
Qed.

End UpperTriangular.

(** ** The QR derivative *)

Section QRDifferentiator.

Variable F : realFieldType.
Variable qr : forall n p : nat, 'M[F]_(n, p) -> 'M[F]_(n, p) * 'M[F]_(p, p).
Variable qr_leaves : forall n p : nat, 'M[F]_(n, p) -> 'M[F]_(n, p).
Variable solve_triangular :
  forall p : nat, 'M[F]_p -> 'M[F]_p -> outcome 'M[F]_p.

Local Abbreviation Stiefel_diff_QR :=
  (Stiefel_diff_QR qr qr_leaves solve_triangular).
Local Abbreviation qr_contract := (qr_contract qr).
Local Abbreviation solve_triangular_contract :=
  (solve_triangular_contract solve_triangular).

Lemma Stiefel_diff_QR_run n p (A0 V : 'M[F]_(n, p)) cs :
  Stiefel_diff_QR n p (Frame (QRArgs A0 V) cs) =
  let h := Frame (QRArgs (qr_leaves A0) V)
                (rcons (rcons cs (Call_qr n p)) (Call_solve_triangular p)) in
  if (p <= n)%N then
    match solve_triangular (qr A0).2 1%:M with
    | Return X => (Return (QR_derivative (qr A0).1 (qr A0).2 X V), h)
    | Raise e => (Raise e, h)
    end
  else (Raise ValueError, h).
Proof.
rewrite /Stiefel_diff_QR /linalg_qr_overwrite /linalg_solve_triangular /bind /=.
by case: (qr A0) => Q R /=; case: leqP => // _; case: (solve_triangular R _).
Qed.

(** *** Algebra of the derivative formulas *)

Section Formulas.

Variables (n p : nat) (Q V : 'M[F]_(n, p)) (R X : 'M[F]_p).
Hypothesis R_upper : upper_triangular R.
Hypothesis RX : R *m X = 1%:M.

Let Rinv := zero_below_diagonal X.
Let QTV := Q^T *m V.
Let L := select_lower (QTV *m Rinv).
Let D := L - L^T.

Lemma Rinv_left : Rinv *m R = 1%:M.
Proof.
rewrite /Rinv zero_below_diagonal_id; last exact: (mulmx1C RX).
exact: upper_triangular_inverse R_upper RX.
Qed.

Lemma select_lower_rest (Y : 'M[F]_p) :
  upper_triangular (Y - (select_lower Y - (select_lower Y)^T)).
Proof.
apply/upper_triangularP=> i j ltji; rewrite !mxE ltji.
by rewrite ltnNge (ltnW ltji) /= subr0 subrr.
Qed.

Lemma skew_select_lower (Y : 'M[F]_p) :
  let S := select_lower Y - (select_lower Y)^T in S + S^T = 0.
Proof. by rewrite /= linearB /= trmxK -[X in _ + X]opprB subrr. Qed.

Lemma dR_upper : upper_triangular (QTV - D *m R).
Proof.
have -> : QTV - D *m R = (QTV *m Rinv - D) *m R.
  by rewrite mulmxBl -mulmxA Rinv_left mulmx1.
exact: upper_triangular_mul (select_lower_rest _) R_upper.
Qed.

Lemma QR_derivative_reconstruction :
  let: (Q', dQ, R', dR) := QR_derivative Q R X V in
  dQ *m R' + Q' *m dR = V.
Proof.
rewrite /QR_derivative -/Rinv -/QTV -/L -/D zero_below_diagonal_id ?dR_upper //.
rewrite mulmxDl -!mulmxA Rinv_left mulmx1 mulmxBr.
by rewrite addrACA subrK subrr addr0.
Qed.

Lemma QR_derivative_tangent :
  Q^T *m Q = 1%:M ->
  let: (Q', dQ, _, _) := QR_derivative Q R X V in
  Q'^T *m dQ + (Q'^T *m dQ)^T = 0.
Proof.
move=> QTQ; rewrite /QR_derivative -/Rinv -/QTV -/L -/D.
have -> : Q^T *m ((V - Q *m QTV) *m Rinv + Q *m D) = D.
  rewrite mulmxDr [Q^T *m (Q *m D)]mulmxA QTQ mul1mx mulmxA mulmxBr.
  by rewrite [Q^T *m (Q *m _)]mulmxA QTQ mul1mx subrr mul0mx add0r.
exact: skew_select_lower.
Qed.

End Formulas.

(** A full-column-rank array has an invertible triangular factor. *)
Lemma qr_factor_unit n p (A0 : 'M[F]_(n, p)) :
  qr_contract A0 -> row_full A0 -> (qr A0).2 \in unitmx.
Proof.
case=> A0E _ _ /eqP rkA; rewrite -row_full_unit /row_full eqn_leq.
by rewrite rank_leq_col /= -{1}rkA {1}A0E mxrankM_maxr.
Qed.

Lemma row_full_leq n p (A0 : 'M[F]_(n, p)) : row_full A0 -> (p <= n)%N.
Proof. by move/eqP=> <-; apply: rank_leq_row. Qed.

(** On a full-column-rank array the call returns the derivative formulas
    evaluated at the solution of R X = 1. *)
Lemma Stiefel_diff_QR_full_rank n p (A0 V : 'M[F]_(n, p)) :
  solve_triangular_contract -> qr_contract A0 -> row_full A0 ->
  exists2 X, (qr A0).2 *m X = 1%:M
    & result (Stiefel_diff_QR n p) (QRArgs A0 V)
      = Return (QR_derivative (qr A0).1 (qr A0).2 X V).
Proof.
move=> solveP qrP fullA; have Runit := qr_factor_unit qrP fullA.
have [_ _ Rupper] := qrP.
have := solveP p (qr A0).2 1%:M Rupper; rewrite Runit => -[X solveE RX].
exists X => //.
by rewrite /result Stiefel_diff_QR_run /= (row_full_leq fullA) solveE.
Qed.

(** C1.  For a full-column-rank [A0] and any [V] of the same shape,
    [Stiefel_diff_QR(A0, V)] returns Q, dQ, R, dR with
    dQ R + Q dR = V, exactly. *)
Theorem Stiefel_diff_QR_reconstruction n p (A0 V : 'M[F]_(n, p)) :
  solve_triangular_contract -> qr_contract A0 -> row_full A0 ->
  exists Q dQ R dR,
    result (Stiefel_diff_QR n p) (QRArgs A0 V) = Return (Q, dQ, R, dR)
    /\ dQ *m R + Q *m dR = V.
Proof.
move=> solveP qrP fullA.
have [X RX ->] := Stiefel_diff_QR_full_rank V solveP qrP fullA.
have [_ _ Rupper] := qrP.
have := QR_derivative_reconstruction (qr A0).1 V Rupper RX.
by rewrite /QR_derivative => ?; do 4![eexists]; split; first by [].
Qed.

(** C4.  For a full-column-rank [A0] and any [V] of the same shape, the Q
    and dQ that [Stiefel_diff_QR(A0, V)] returns make Q^T dQ skew-symmetric:
    Q^T dQ + (Q^T dQ)^T = 0. *)
Theorem Stiefel_diff_QR_tangent n p (A0 V : 'M[F]_(n, p)) :
  solve_triangular_contract -> qr_contract A0 -> row_full A0 ->
  exists Q dQ R dR,
    result (Stiefel_diff_QR n p) (QRArgs A0 V) = Return (Q, dQ, R, dR)
    /\ Q^T *m dQ + (Q^T *m dQ)^T = 0.
Proof.
move=> solveP qrP fullA.
have [X RX ->] := Stiefel_diff_QR_full_rank V solveP qrP fullA.
have [_ QTQ _] := qrP.
have := @QR_derivative_tangent _ _ _ V (qr A0).2 X QTQ.
by rewrite /QR_derivative => ?; do 4![eexists]; split; first by [].
Qed.

End QRDifferentiator.

(** ** The Stiefel exponential derivative *)

Section StiefelExponentialDifferentiator.

Variable F : realFieldType.
Variable qr : forall n p : nat, 'M[F]_(n, p) -> 'M[F]_(n, p) * 'M[F]_(p, p).
Variable qr_leaves : forall n p : nat, 'M[F]_(n, p) -> 'M[F]_(n, p).
Variable solve_triangular :
  forall p : nat, 'M[F]_p -> 'M[F]_p -> outcome 'M[F]_p.
Variable expm : forall n : nat, 'M[F]_n -> 'M[F]_n.

Local Abbreviation Stiefel_diff_QR :=
  (Stiefel_diff_QR qr qr_leaves solve_triangular).
Local Abbreviation diff_expm := (diff_expm expm).
Local Abbreviation Stiefel_diff_exp :=
  (Stiefel_diff_exp qr qr_leaves solve_triangular expm).
Local Abbreviation exp_derivative := (exp_derivative expm).

(** A run of [Stiefel_diff_QR] depends on the log only by extending it. *)
Lemma Stiefel_diff_QR_frame n p (w : QR_args F n p) cs :
  Stiefel_diff_QR n p (Frame w cs) =
  (result (Stiefel_diff_QR n p) w,
   Frame (QRArgs (qr_leaves (arg_A0 w)) (arg_V w))
        (rcons (rcons cs (Call_qr n p)) (Call_solve_triangular p))).
Proof.
case: w => A0 V; rewrite /result !Stiefel_diff_QR_run /=.
by case: ifP => // _; case: (solve_triangular _ _).
Qed.

Lemma diff_expm_frame n (w : expm_args F n) cs :
  diff_expm n (Frame w cs) =
  (let E := expm (block_mx (arg_M w) (arg_dM w) 0 (arg_M w)) in
   Return (ulsubmx E, ursubmx E),
   Frame w (rcons cs (Call_expm (n + n)))).
Proof. by case: w. Qed.

Lemma Stiefel_diff_exp_run n p alpha (U Delta V : 'M[F]_(n, p)) :
  let A0 := skew (U^T *m Delta) in
  let dA0 := skew (U^T *m V) in
  let w := ExpArgs U Delta V in
  Stiefel_diff_exp n p alpha (Frame w [::]) =
  match result (Stiefel_diff_QR n p)
          (QRArgs (Delta - U *m A0) (V - U *m dA0)) with
  | Raise e => (Raise e, Frame w [:: Call_qr n p; Call_solve_triangular p])
  | Return (Q, dQ, R, dR) =>
      if alpha + 1 == 0
      then (Raise ZeroDivisionError,
            Frame w [:: Call_qr n p; Call_solve_triangular p])
      else (Return (exp_derivative alpha U A0 dA0 Q dQ R dR),
            Frame w (exp_calls n p alpha))
  end.
Proof.
rewrite /= /Stiefel_diff_exp /bind /= /call_with Stiefel_diff_QR_frame /=.
case: (result _ _) => [[[[Q dQ] R] dR]|e] //=.
rewrite /pydiv; case: ifP => //= _.
rewrite /exp_derivative /exp_calls; case: (tol < `|alpha|) => //=.
by case: (tol < `|alpha + 1|).
Qed.

(** The outcome of a call whose QR step has returned. *)
Lemma Stiefel_diff_exp_result n p alpha (U Delta V : 'M[F]_(n, p))
    (Q dQ : 'M[F]_(n, p)) (R dR : 'M[F]_p) :
  let A0 := 2^-1 *: (U^T *m Delta - (U^T *m Delta)^T) in
  let dA0 := 2^-1 *: (U^T *m V - (U^T *m V)^T) in
  result (Stiefel_diff_QR n p) (QRArgs (Delta - U *m A0) (V - U *m dA0))
  = Return (Q, dQ, R, dR) ->
  result (Stiefel_diff_exp n p alpha) (ExpArgs U Delta V)
  = if alpha + 1 == 0 then Raise ZeroDivisionError
    else Return (exp_derivative alpha U A0 dA0 Q dQ R dR).
Proof.
move=> A0 dA0 QRE.
rewrite {1}/result Stiefel_diff_exp_run /= /skew -/A0 -/dA0 QRE.
by case: ifP.
Qed.

(** The tolerance lies strictly between 0 and 1. *)
Lemma tol_gt0 : 0 < tol :> F.
Proof. by rewrite /tol invr_gt0 exprn_gt0 // ltr0n. Qed.

Lemma tol_lt1 : tol < 1 :> F.
Proof.
by rewrite /tol invf_lt1 ?exprn_gt0 ?ltr0n // exprn_egt1 // ltr1n.
Qed.

Lemma near_zero_add1 (alpha : F) : `|alpha| <= tol -> alpha + 1 != 0.
Proof.
rewrite ler_norml => /andP[le_alpha _]; rewrite gt_eqF //.
by rewrite -ltrBlDr sub0r (lt_le_trans _ le_alpha) // ltrN2 tol_lt1.
Qed.

Lemma skew_is_skew p (X : 'M[F]_p) : (skew X)^T = - skew X.
Proof. by rewrite /skew linearZ /= linearB /= trmxK -scalerN opprB. Qed.

Section Claims.

Variables (n p : nat) (alpha : F) (U Delta V : 'M[F]_(n, p)).

Let A0 := 2^-1 *: (U^T *m Delta - (U^T *m Delta)^T).
Let dA0 := 2^-1 *: (U^T *m V - (U^T *m V)^T).
Let X0 := Delta - U *m A0.
Let Y0 := V - U *m dA0.

(** C7.  On the canonical metric, |alpha| <= 1e-10, and with Q, dQ, R, dR
    from the QR step, [Stiefel_diff_exp] returns
    dQ expM_I0[p:2p,0:p] + U dexpM_I0[0:p,0:p] + Q dexpM_I0[p:2p,0:p],
    where expM_I0, dexpM_I0 are the left p columns of what [diff_expm]
    returns on M = [[v A0, -R^T], [R, 0]], dM = [[v dA0, -dR^T], [dR, 0]],
    v = 1/(alpha + 1). *)
Theorem Stiefel_diff_exp_canonical (Q dQ : 'M[F]_(n, p)) (R dR : 'M[F]_p) :
  `|alpha| <= tol ->
  result (Stiefel_diff_QR n p) (QRArgs X0 Y0) = Return (Q, dQ, R, dR) ->
  let v := 1 / (alpha + 1) in
  let M_ := block_mx (v *: A0) (- R^T) R 0 in
  let dM := block_mx (v *: dA0) (- dR^T) dR 0 in
  exists expM dexpM : 'M[F]_(p + p),
    result (diff_expm (p + p)) (ExpmArgs M_ dM) = Return (expM, dexpM)
    /\ let expM_I0 := lsubmx expM in
       let dexpM_I0 := lsubmx dexpM in
       result (Stiefel_diff_exp n p alpha) (ExpArgs U Delta V)
       = Return (dQ *m dsubmx expM_I0 + U *m usubmx dexpM_I0
                 + Q *m dsubmx dexpM_I0).
Proof.
move=> le_tol QRE /=; do 2![eexists]; split.
  by rewrite /result diff_expm_frame.
rewrite /result Stiefel_diff_exp_run /= -/A0 -/dA0 -/X0 -/Y0 QRE.
rewrite (negPf (near_zero_add1 le_tol)) /= /exp_derivative.
by rewrite ltNge le_tol.
Qed.

(** C9.  An input whose U^T Delta is not skew-symmetric is not rejected:
    the projection step raises nothing, what it hands on is the skew part
    A0 = (U^T Delta - (U^T Delta)^T)/2 (and dA0 likewise), and every later
    step works from A0 and dA0: the QR step on Delta - U A0 and V - U dA0,
    the block matrices and the combination.  The call fails only where the
    QR step or the division 1/(alpha + 1) does. *)
Theorem Stiefel_diff_exp_symmetrizes :
  (U^T *m Delta)^T != - (U^T *m Delta) ->
  [/\ A0^T = - A0, dA0^T = - dA0
    & result (Stiefel_diff_exp n p alpha) (ExpArgs U Delta V) =
      match result (Stiefel_diff_QR n p)
              (QRArgs (Delta - U *m A0) (V - U *m dA0)) with
      | Raise e => Raise e
      | Return (Q, dQ, R, dR) =>
          if alpha + 1 == 0 then Raise ZeroDivisionError
          else Return (exp_derivative alpha U A0 dA0 Q dQ R dR)
      end].
Proof.
move=> _; split; try exact: skew_is_skew.
rewrite {1}/result Stiefel_diff_exp_run /= /skew -/A0 -/dA0.
by case: (result _ _) => [[[[Q dQ] R] dR]|e] //=; case: ifP.
Qed.

(** C10, amended.  For |alpha| > 1e-10 and |alpha + 1| <= 1e-10 with
    alpha different from -1, and with Q, dQ, R, dR from the QR step, the call
    raises nothing and returns the canonical combination, although it has
    also called [diff_expm] on (mu A0, mu dA0): the log ends with the
    exponential of that 2p x 2p block matrix. *)
Theorem Stiefel_diff_exp_near_minus_one (Q dQ : 'M[F]_(n, p)) (R dR : 'M[F]_p) :
  `|alpha| > tol -> `|alpha + 1| <= tol -> alpha != -1 ->
  result (Stiefel_diff_QR n p) (QRArgs X0 Y0) = Return (Q, dQ, R, dR) ->
  let v := 1 / (alpha + 1) in
  let M_ := block_mx (v *: A0) (- R^T) R 0 in
  let dM := block_mx (v *: dA0) (- dR^T) dR 0 in
  exists expM dexpM : 'M[F]_(p + p),
    [/\ result (diff_expm (p + p)) (ExpmArgs M_ dM) = Return (expM, dexpM),
        result (Stiefel_diff_exp n p alpha) (ExpArgs U Delta V)
        = Return (dQ *m dsubmx (lsubmx expM) + U *m usubmx (lsubmx dexpM)
                  + Q *m dsubmx (lsubmx dexpM))
      & called (Stiefel_diff_exp n p alpha) (ExpArgs U Delta V)
        = [:: Call_qr n p; Call_solve_triangular p;
              Call_expm (p + p + (p + p)); Call_expm (p + p)]].
Proof.
move=> gt_tol le_tol; rewrite -subr_eq0 opprK => /negPf neq0 QRE /=.
do 2![eexists]; split.
- by rewrite /result diff_expm_frame.
- rewrite {1}/result Stiefel_diff_exp_run /= /skew -/A0 -/dA0 -/X0 -/Y0 QRE.
  by rewrite neq0 /= /exp_derivative gt_tol /= ltNge le_tol.
- rewrite /called Stiefel_diff_exp_run /= /skew -/A0 -/dA0 -/X0 -/Y0 QRE.
  by rewrite neq0 /= /exp_calls gt_tol.
Qed.

(** C2, amended.  The call makes no test of alpha.  Once the QR step has
    returned, it fails exactly when alpha = -1, with the [ZeroDivisionError]
    of 1.0/(alpha + 1.0); for every other alpha, below -1 or within 1e-10
    of it, it returns a result. *)
Theorem Stiefel_diff_exp_alpha_unchecked (Q dQ : 'M[F]_(n, p)) (R dR : 'M[F]_p) :
  result (Stiefel_diff_QR n p) (QRArgs X0 Y0) = Return (Q, dQ, R, dR) ->
  result (Stiefel_diff_exp n p alpha) (ExpArgs U Delta V)
  = if alpha == -1 then Raise ZeroDivisionError
    else Return (exp_derivative alpha U A0 dA0 Q dQ R dR).
Proof.
move=> QRE.
rewrite {1}/result Stiefel_diff_exp_run /= /skew -/A0 -/dA0 -/X0 -/Y0 QRE.
by rewrite -[alpha == -1]subr_eq0 opprK; case: ifP.
Qed.

End Claims.

End StiefelExponentialDifferentiator.

(** ** The SVD derivative *)

Section SVDDifferentiator.

Variable F : realFieldType.
Variables (n m p r : nat).
Variables (Y dY : 'M[F]_(n, m)) (U : 'M[F]_(n, p)) (S : 'rV[F]_p).
Variable V : 'M[F]_(m, p + r).

(** The call has no path that raises. *)
Lemma Stiefel_diff_SVD_returns :
  fails (result (Stiefel_diff_SVD n m p r) (SVDArgs Y dY U S V)) = false.
Proof. by []. Qed.

(** C8.  When [V] is the full square m x m matrix (it has p + r = m
    columns) and m > p, the returned dV is V_p Alpha_p + V_{p:m} Alpha_mp with
    Alpha_mp[j,k] = C'[k,j]/S_k and C' = U^T dY V_{p:m}; otherwise, and so
    for a thin V (r = 0) and for m = p, it is V_p Alpha_p alone.  Alpha_p is
    the returned Alpha. *)
Theorem Stiefel_diff_SVD_dV :
  let C' := U^T *m dY *m rsubmx V in
  let Alpha_mp := \matrix_(j < r, k < p) (C' k j / S 0 k) in
  (exists dU_bot A dU Alpha_p dS,
     result (Stiefel_diff_SVD n m p r) (SVDArgs Y dY U S V)
     = Return (dU_bot, A, dU, Alpha_p, dS,
               if (m == p + r)%N && (p < m)%N
               then lsubmx V *m Alpha_p + rsubmx V *m Alpha_mp
               else lsubmx V *m Alpha_p))
  /\ ((r == 0)%N || (m == p) -> (m == p + r)%N && (p < m)%N = false).
Proof.
split; first by do 5![eexists]; rewrite /result /=; case: ifP.
case/orP=> /eqP ->; last by rewrite ltnn andbF.
by rewrite addn0; case: eqP => // ->; rewrite ltnn.
Qed.

(** C3, amended.  The call makes no test of the spectrum: whatever [S]
    holds, coincident, nearly coincident or zero entries included, it
    raises nothing and returns its six outputs.  Where no divisor is zero
    (no S[k], and no (S[k]+S[j])(S[k]-S[j]) for j < k) the returned A and
    Alpha are skew-symmetric; where one is zero numpy has stored inf or nan
    and nothing is said of the values. *)
Theorem Stiefel_diff_SVD_unchecked :
  exists dU_bot A dU Alpha dS dV,
    result (Stiefel_diff_SVD n m p r) (SVDArgs Y dY U S V)
    = Return (dU_bot, A, dU, Alpha, dS, dV)
    /\ (nonzero_spectrum S -> separated_spectrum S ->
        A^T = - A /\ Alpha^T = - Alpha).
Proof.
do 6![eexists]; split; first by rewrite /result /=.
move=> _ _; split.
  by rewrite linearZ /= linearB /= trmxK -scalerN opprB.
apply/matrixP=> j k; rewrite !mxE.
by case: (ltngtP j k) => _; rewrite ?opprK ?oppr0.
Qed.

End SVDDifferentiator.

(** ** The matrix exponential and its derivative *)

Section ExponentialSeries.

Variable F : realFieldType.

Lemma block_pow p (M_ E : 'M[F]_p) k :
  (block_mx M_ E 0 M_) ^+ k
  = block_mx (M_ ^+ k) (pow_derivative M_ E k) 0 (M_ ^+ k).
Proof.
elim: k => [|k IH]; first by rewrite !expr0 -scalar_mx_block.
rewrite exprSr IH -mulmxE mulmx_block !mulmx0 !mul0mx !addr0 !add0r.
by rewrite /= [in RHS]addrC !exprSr.
Qed.

Lemma expm_series_block p (M_ E : 'M[F]_p) N :
  expm_series N (block_mx M_ E 0 M_)
  = block_mx (expm_series N M_) (expm_series_derivative N M_ E)
             0 (expm_series N M_).
Proof.
rewrite /expm_series /expm_series_derivative.
elim: N => [|N IH]; first by rewrite !big_ord0 block_mx0.
by rewrite !big_ord_recr /= IH block_pow scale_block_mx add_block_mx
           scaler0 addr0.
Qed.

Lemma map_horner_polyC m n (t : F) (A : 'M[F]_(m, n)) :
  map_mx (horner_eval t) (map_mx polyC A) = A.
Proof. by apply/matrixP=> i j; rewrite !mxE /horner_eval hornerC. Qed.

(** (M + t E)^k = M^k + t D_k + t^2 Q_k(t) with Q_k a polynomial in t:
    D_k is the derivative of the k-th power at M in the direction E. *)
Lemma pow_expansion p (M_ E : 'M[F]_p) k (t : F) :
  (M_ + t *: E) ^+ k
  = M_ ^+ k + t *: pow_derivative M_ E k
    + t ^+ 2 *: map_mx (horner_eval t) (pow_remainder M_ E k).
Proof.
elim: k => [|k IH].
  by rewrite !expr0 /= map_mx0 !scaler0 !addr0.
rewrite exprSr IH /= -!mulmxE map_mxD map_mxM map_mxD map_mxZ /=.
rewrite !map_horner_polyC /horner_eval hornerX.
set Q := map_mx _ _; set D := pow_derivative _ _ _.
rewrite !mulmxDl -!scalemxAl !mulmxDr -!scalemxAr !scalerDr !scalerA -expr2.
rewrite [M_ ^+ k.+1]exprSr -mulmxE -!addrA; congr (_ + _).
by rewrite addrCA; congr (_ + (_ + _)); rewrite addrC -addrA.
Qed.

(** The partial sums along the line M + t E: the term-by-term derivative is
    their first-order coefficient, the rest is t^2 times a polynomial. *)
Lemma expm_series_expansion p (M_ E : 'M[F]_p) N (t : F) :
  expm_series N (M_ + t *: E)
  = expm_series N M_ + t *: expm_series_derivative N M_ E
    + t ^+ 2 *: map_mx (horner_eval t) (expm_series_remainder N M_ E).
Proof.
rewrite /expm_series /expm_series_derivative /expm_series_remainder.
elim: N => [|N IH]; first by rewrite !big_ord0 map_mx0 !scaler0 !addr0.
rewrite !big_ord_recr /= IH pow_expansion map_mxD map_mxZ /=.
rewrite /horner_eval hornerC !scalerDr !scalerA.
rewrite [_ * t]mulrC [_ * t ^+ 2]mulrC -!addrA; congr (_ + _).
by rewrite [X in _ + X = _]addrCA addrCA; congr (_ + (_ + _)); rewrite addrCA.
Qed.

Lemma mx_cvg_unique m n (u : nat -> 'M[F]_(m, n)) (l1 l2 : 'M[F]_(m, n)) :
  mx_cvg u l1 -> mx_cvg u l2 -> l1 = l2.
Proof.
move=> cvg1 cvg2; apply/matrixP=> i j.
have [//|neq12] := eqVneq (l1 i j) (l2 i j).
have half_gt0 : 0 < `|l1 i j - l2 i j| / 2.
  by rewrite divr_gt0 ?normr_gt0 ?subr_eq0 // ltr0n.
have [N1 near1] := cvg1 _ half_gt0; have [N2 near2] := cvg2 _ half_gt0.
have := near1 (maxn N1 N2) (leq_maxl _ _) i j.
have := near2 (maxn N1 N2) (leq_maxr _ _) i j.
set x := u _ i j => lt2 lt1.
have: `|l1 i j - l2 i j| < `|l1 i j - l2 i j| / 2 + `|l1 i j - l2 i j| / 2.
  apply: le_lt_trans (ltrD lt2 lt1).
  have -> : l1 i j - l2 i j = (x - l2 i j) - (x - l1 i j).
    by rewrite opprB [RHS]addrC addrA subrK.
  exact: ler_normB.
by rewrite -splitr ltxx.
Qed.

Lemma mx_cvg_const m n (l : 'M[F]_(m, n)) : mx_cvg (fun _ => l) l.
Proof. by move=> eps eps_gt0; exists 0%N => N _ i j; rewrite subrr normr0. Qed.

Lemma mx_cvg_ext m n (u v : nat -> 'M[F]_(m, n)) l :
  (forall N, u N = v N) -> mx_cvg u l -> mx_cvg v l.
Proof.
move=> uv cvg eps /cvg[N0 near]; exists N0 => N /near {}near i j.
by rewrite -uv.
Qed.

(** A block matrix converges block by block. *)
Lemma mx_cvg_block m1 m2 n1 n2 (u : nat -> 'M[F]_(m1 + m2, n1 + n2)) l :
  mx_cvg u l ->
  [/\ mx_cvg (fun N => ulsubmx (u N)) (ulsubmx l),
      mx_cvg (fun N => ursubmx (u N)) (ursubmx l),
      mx_cvg (fun N => dlsubmx (u N)) (dlsubmx l)
    & mx_cvg (fun N => drsubmx (u N)) (drsubmx l)].
Proof.
move=> cvg; split=> eps /cvg[N0 near]; exists N0 => N /near {}near i j.
- by have := near (lshift _ i) (lshift _ j); rewrite !mxE.
- by have := near (lshift _ i) (rshift _ j); rewrite !mxE.
- by have := near (rshift _ i) (lshift _ j); rewrite !mxE.
- by have := near (rshift _ i) (rshift _ j); rewrite !mxE.
Qed.

Section BlockIdentity.

Variable expm : forall n : nat, 'M[F]_n -> 'M[F]_n.
Variables (p : nat) (M_ dM : 'M[F]_p).

Let Aux : 'M[F]_(p + p) := block_mx M_ dM 0 M_.

(** C5.  [diff_expm(M, dM)] hands Aux = [[M, dM], [0, M]] to [linalg.expm]
    and returns the top-left and top-right p x p blocks of the result.
    With exp the sum of the exponential series, exp(Aux) is
    [[exp(M), dexpM], [0, exp(M)]], where dexpM is the Frechet derivative of
    the exponential at M in the direction dM: the sum of the series
    differentiated term by term, each partial sum of which is the
    coefficient of t in the partial sum of exp(M + t dM). *)
Theorem diff_expm_block :
  expm_contract expm M_ -> expm_contract expm Aux ->
  exists dexpM : 'M[F]_p,
    [/\ expm Aux = block_mx (expm M_) dexpM 0 (expm M_),
        mx_cvg (fun N => expm_series_derivative N M_ dM) dexpM,
        forall N, exists Rem : 'M[{poly F}]_p, forall t : F,
          expm_series N (M_ + t *: dM)
          = expm_series N M_ + t *: expm_series_derivative N M_ dM
            + t ^+ 2 *: map_mx (horner_eval t) Rem,
        called (diff_expm expm p) (ExpmArgs M_ dM) = [:: Call_expm (p + p)]
      & result (diff_expm expm p) (ExpmArgs M_ dM)
        = Return (ulsubmx (expm Aux), ursubmx (expm Aux))
        /\ (ulsubmx (expm Aux), ursubmx (expm Aux)) = (expm M_, dexpM)].
Proof.
move=> expM expAux; exists (ursubmx (expm Aux)).
have blockE N := expm_series_block M_ dM N; rewrite -/Aux in blockE.
have [cul cur cdl cdr] := mx_cvg_block expAux.
have cvg_ul : mx_cvg (fun N => expm_series N M_) (ulsubmx (expm Aux)).
  by apply: mx_cvg_ext cul => N; rewrite blockE block_mxKul.
have cvg_ur :
    mx_cvg (fun N => expm_series_derivative N M_ dM) (ursubmx (expm Aux)).
  by apply: mx_cvg_ext cur => N; rewrite blockE block_mxKur.
have cvg_dl : mx_cvg (fun=> 0) (dlsubmx (expm Aux)).
  by apply: mx_cvg_ext cdl => N; rewrite blockE block_mxKdl.
have cvg_dr : mx_cvg (fun N => expm_series N M_) (drsubmx (expm Aux)).
  by apply: mx_cvg_ext cdr => N; rewrite blockE block_mxKdr.
have ulE := mx_cvg_unique cvg_ul expM.
have drE := mx_cvg_unique cvg_dr expM.
have dlE := mx_cvg_unique cvg_dl (mx_cvg_const 0).
split=> //.
- by rewrite -[LHS]submxK ulE drE dlE.
- by move=> N; eexists => t; apply: expm_series_expansion.
- by split; last rewrite ulE.
Qed.

End BlockIdentity.

End ExponentialSeries.

(** ** Effects on the caller's arrays *)

Section CallerArrays.

Variable F : realFieldType.
Variable qr : forall n p : nat, 'M[F]_(n, p) -> 'M[F]_(n, p) * 'M[F]_(p, p).
Variable qr_leaves : forall n p : nat, 'M[F]_(n, p) -> 'M[F]_(n, p).
Variable solve_triangular :
  forall p : nat, 'M[F]_p -> 'M[F]_p -> outcome 'M[F]_p.
Variable expm : forall n : nat, 'M[F]_n -> 'M[F]_n.

(** C6, amended.  [diff_expm], [Stiefel_diff_exp] and [Stiefel_diff_SVD]
    leave every array they were called on as it was, and so does
    [Stiefel_diff_QR] with V; A0, handed to [linalg.qr] with
    [overwrite_a=True], holds after the call what that routine left in
    it. *)
Theorem caller_arrays_after :
  [/\ forall n p (w : QR_args F n p),
        after (Stiefel_diff_QR qr qr_leaves solve_triangular n p) w
        = QRArgs (qr_leaves (arg_A0 w)) (arg_V w),
      forall n (w : expm_args F n), after (diff_expm expm n) w = w,
      forall n p alpha (w : exp_args F n p),
        after (Stiefel_diff_exp qr qr_leaves solve_triangular expm n p alpha) w
        = w
    & forall n m p r (w : SVD_args F n m p r),
        after (Stiefel_diff_SVD n m p r) w = w].
Proof.
split.
- by move=> n p w; rewrite /after Stiefel_diff_QR_frame.
- by move=> n w; rewrite /after diff_expm_frame.
- move=> n p alpha [U Delta V]; rewrite /after Stiefel_diff_exp_run /=.
  by case: (result _ _) => [[[[Q dQ] R] dR]|e] //=; case: ifP.
- by move=> n m p r [Y dY U S V].
Qed.

End CallerArrays.

(** ** Further properties of the QR derivative *)

Section QRProperties.

Variable F : realFieldType.
Variable qr : forall n p : nat, 'M[F]_(n, p) -> 'M[F]_(n, p) * 'M[F]_(p, p).
Variable qr_leaves : forall n p : nat, 'M[F]_(n, p) -> 'M[F]_(n, p).
Variable solve_triangular :
  forall p : nat, 'M[F]_p -> 'M[F]_p -> outcome 'M[F]_p.

Local Abbreviation Stiefel_diff_QR :=
  (Stiefel_diff_QR qr qr_leaves solve_triangular).
Local Abbreviation qr_contract := (qr_contract qr).
Local Abbreviation solve_triangular_contract :=
  (solve_triangular_contract solve_triangular).

Lemma select_lower_linear p (c : F) (A B : 'M[F]_p) :
  select_lower (c *: A + B) = c *: select_lower A + select_lower B.
Proof.
by apply/matrixP=> i j; rewrite !mxE; case: ifP; rewrite ?mulr0 ?addr0.
Qed.

Lemma zero_below_diagonal_linear p (c : F) (A B : 'M[F]_p) :
  zero_below_diagonal (c *: A + B)
  = c *: zero_below_diagonal A + zero_below_diagonal B.
Proof.
by apply/matrixP=> i j; rewrite !mxE; case: ifP; rewrite ?mulr0 ?addr0.
Qed.

Lemma QR_derivative_linear n p (Q V1 V2 : 'M[F]_(n, p)) (R X : 'M[F]_p) c :
  QR_derivative Q R X (c *: V1 + V2)
  = (Q, c *: (QR_derivative Q R X V1).1.1.2 + (QR_derivative Q R X V2).1.1.2,
     R, c *: (QR_derivative Q R X V1).2 + (QR_derivative Q R X V2).2).
Proof.
rewrite /QR_derivative /=.
set Ri := zero_below_diagonal X.
have WE : Q^T *m (c *: V1 + V2) = c *: (Q^T *m V1) + Q^T *m V2.
  by rewrite mulmxDr -scalemxAr.
rewrite WE; set W1 := Q^T *m V1; set W2 := Q^T *m V2.
rewrite [(c *: W1 + W2) *m Ri]mulmxDl -scalemxAl select_lower_linear.
set L1 := select_lower (W1 *m Ri); set L2 := select_lower (W2 *m Ri).
have -> : c *: L1 + L2 - (c *: L1 + L2)^T = c *: (L1 - L1^T) + (L2 - L2^T).
  by rewrite [(_ + _)^T]linearD /= linearZ /= opprD addrACA -scalerBr.
set D1 := L1 - L1^T; set D2 := L2 - L2^T.
have -> : c *: V1 + V2 - Q *m (c *: W1 + W2)
          = c *: (V1 - Q *m W1) + (V2 - Q *m W2).
  by rewrite mulmxDr -scalemxAr opprD addrACA -scalerBr.
have -> : c *: W1 + W2 - (c *: D1 + D2) *m R
          = c *: (W1 - D1 *m R) + (W2 - D2 *m R).
  by rewrite mulmxDl -scalemxAl opprD addrACA -scalerBr.
rewrite zero_below_diagonal_linear mulmxDl -scalemxAl mulmxDr -scalemxAr.
by rewrite addrACA -scalerDr.
Qed.

(** A factor R that is not invertible: the array is not of full column
    rank. *)
Lemma qr_factor_singular n p (A0 : 'M[F]_(n, p)) :
  qr_contract A0 -> ~~ row_full A0 -> ((qr A0).2 \in unitmx) = false.
Proof.
move=> [A0E QTQ _] not_full; apply: contraNF not_full => Runit.
rewrite /row_full [X in \rank X]A0E mxrankMfree ?row_free_unit //.
by rewrite eqn_leq rank_leq_col /= -{1}(mxrank1 F p) -QTQ mxrankM_maxr.
Qed.

(** The QR step on an array that is not of full column rank. *)
Lemma Stiefel_diff_QR_singular n p (A0 V : 'M[F]_(n, p)) :
  solve_triangular_contract -> qr_contract A0 -> (p <= n)%N ->
  ~~ row_full A0 ->
  result (Stiefel_diff_QR n p) (QRArgs A0 V) = Raise LinAlgError.
Proof.
move=> solveP qrP lepn not_full; have [_ _ Rupper] := qrP.
have := solveP p (qr A0).2 1%:M Rupper.
rewrite (qr_factor_singular qrP not_full) => solveE.
by rewrite /result Stiefel_diff_QR_run /= lepn solveE.
Qed.

(** X5. [select_lower] and the skew completion D = L - L^T of lines 80-83: D
    is skew-symmetric, it has the strict lower triangle of the array it was
    made from, what it leaves of that array is upper triangular, and L
    vanishes exactly on the upper triangular arrays. *)
Theorem select_lower_completion p (X : 'M[F]_p) :
  let L := select_lower X in
  let D := L - L^T in
  [/\ D^T = - D, select_lower D = L, upper_triangular (X - D)
    & (L == 0) = upper_triangular X].
Proof.
move=> L D; split.
- by rewrite /D linearB /= trmxK opprB.
- apply/matrixP=> i j; rewrite !mxE; case: ifP => // ltji.
  by rewrite ltji [(i < j)%N]ltnNge (ltnW ltji) /= subr0.
- exact: select_lower_rest.
- apply/eqP/upper_triangularP=> [L0 i j ltji|Xu].
    by move/matrixP/(_ i j): L0; rewrite !mxE ltji.
  by apply/matrixP=> i j; rewrite !mxE; case: ifP => // /Xu.
Qed.

(** X1. The derivative is linear in the direction: with the base point fixed,
    the dQ and dR of c V1 + V2 are c dQ1 + dQ2 and c dR1 + dR2. *)
Theorem Stiefel_diff_QR_linear n p (A0 V1 V2 : 'M[F]_(n, p)) (c : F)
    (Q dQ1 dQ2 : 'M[F]_(n, p)) (R dR1 dR2 : 'M[F]_p) :
  result (Stiefel_diff_QR n p) (QRArgs A0 V1) = Return (Q, dQ1, R, dR1) ->
  result (Stiefel_diff_QR n p) (QRArgs A0 V2) = Return (Q, dQ2, R, dR2) ->
  result (Stiefel_diff_QR n p) (QRArgs A0 (c *: V1 + V2))
  = Return (Q, c *: dQ1 + dQ2, R, c *: dR1 + dR2).
Proof.
rewrite /result !Stiefel_diff_QR_run /=; case: ifP => // _.
case: (solve_triangular _ _) => //= X [_ dQ1E _ dR1E] [QE dQ2E RE dR2E].
by rewrite QR_derivative_linear /= dQ1E dQ2E dR1E dR2E QE RE.
Qed.

(** X2. An array that is not of full column rank makes the triangular factor
    singular: the call ends in [LinAlgError], raised by the triangular solve,
    after [linalg.qr] has already overwritten the caller's A0. *)
Theorem Stiefel_diff_QR_rank_deficient n p (A0 V : 'M[F]_(n, p)) :
  solve_triangular_contract -> qr_contract A0 -> (p <= n)%N ->
  ~~ row_full A0 ->
  [/\ result (Stiefel_diff_QR n p) (QRArgs A0 V) = Raise LinAlgError,
      called (Stiefel_diff_QR n p) (QRArgs A0 V)
      = [:: Call_qr n p; Call_solve_triangular p]
    & after (Stiefel_diff_QR n p) (QRArgs A0 V) = QRArgs (qr_leaves A0) V].
Proof.
move=> solveP qrP lepn not_full; split.
- exact: Stiefel_diff_QR_singular.
- by rewrite /called Stiefel_diff_QR_frame.
- by rewrite /after Stiefel_diff_QR_frame.
Qed.

(** X4. On a full-column-rank array the two clean-up loops change nothing: the
    solution X of R X = 1 is already upper triangular and a two-sided inverse,
    and Q^T V - D R already has a zero strict lower triangle. *)
Theorem Stiefel_diff_QR_cleanup n p (A0 V : 'M[F]_(n, p)) :
  solve_triangular_contract -> qr_contract A0 -> row_full A0 ->
  let Q := (qr A0).1 in
  let R := (qr A0).2 in
  exists X : 'M[F]_p,
    let L := select_lower (Q^T *m V *m X) in
    let D := L - L^T in
    [/\ (R *m X = 1%:M /\ X *m R = 1%:M), upper_triangular X,
        upper_triangular (Q^T *m V - D *m R)
      & result (Stiefel_diff_QR n p) (QRArgs A0 V)
        = Return (Q, (V - Q *m (Q^T *m V)) *m X + Q *m D, R,
                  Q^T *m V - D *m R)].
Proof.
move=> solveP qrP fullA.
have [X RX ->] := @Stiefel_diff_QR_full_rank F qr qr_leaves solve_triangular
  n p A0 V solveP qrP fullA.
have [_ _ Rupper] := qrP; exists X => /=.
have Xupper := upper_triangular_inverse Rupper RX.
have dRupper := @dR_upper F n p (qr A0).1 V (qr A0).2 X Rupper RX.
rewrite /QR_derivative !(zero_below_diagonal_id Xupper) in dRupper *.
rewrite (zero_below_diagonal_id dRupper).
by split=> //; split=> //; apply: mulmx1C.
Qed.

(** X20. Along the base point itself, V a separate array holding the values
    of A0, the factor Q does not move and R moves with itself: dQ = 0 and
    dR = R. *)
Theorem Stiefel_diff_QR_along_base n p (A0 : 'M[F]_(n, p)) :
  solve_triangular_contract -> qr_contract A0 -> row_full A0 ->
  result (Stiefel_diff_QR n p) (QRArgs A0 A0)
  = Return ((qr A0).1, 0, (qr A0).2, (qr A0).2).
Proof.
move=> solveP qrP fullA.
have [X RX ->] := @Stiefel_diff_QR_full_rank F qr qr_leaves solve_triangular
  n p A0 A0 solveP qrP fullA.
have [A0E QTQ Rupper] := qrP.
have Xupper := upper_triangular_inverse Rupper RX.
rewrite /QR_derivative (zero_below_diagonal_id Xupper).
have -> : ((qr A0).1)^T *m A0 = (qr A0).2.
  by rewrite [X in _ *m X]A0E mulmxA QTQ mul1mx.
rewrite RX -A0E subrr mul0mx add0r.
have -> : select_lower (1%:M : 'M[F]_p) = 0.
  apply/matrixP=> i j; rewrite !mxE; case: ifP => // ltji.
  by rewrite -val_eqE gtn_eqF.
by rewrite trmx0 subrr mulmx0 mul0mx subr0 (zero_below_diagonal_id Rupper).
Qed.

End QRProperties.

(** ** Further properties of the Stiefel exponential derivative *)

Section ExponentialProperties.

Variable F : realFieldType.
Variable qr : forall n p : nat, 'M[F]_(n, p) -> 'M[F]_(n, p) * 'M[F]_(p, p).
Variable qr_leaves : forall n p : nat, 'M[F]_(n, p) -> 'M[F]_(n, p).
Variable solve_triangular :
  forall p : nat, 'M[F]_p -> 'M[F]_p -> outcome 'M[F]_p.
Variable expm : forall n : nat, 'M[F]_n -> 'M[F]_n.

Local Abbreviation Stiefel_diff_QR :=
  (Stiefel_diff_QR qr qr_leaves solve_triangular).
Local Abbreviation Stiefel_diff_exp :=
  (Stiefel_diff_exp qr qr_leaves solve_triangular expm).
Local Abbreviation qr_contract := (qr_contract qr).
Local Abbreviation solve_triangular_contract :=
  (solve_triangular_contract solve_triangular).

(** B = skew(B) + sym(B) *)
Lemma skew_sym_parts p (B : 'M[F]_p) : B = skew B + 2^-1 *: (B + B^T).
Proof.
rewrite /skew -scalerDr addrACA addNr addr0 -mulr2n -scaler_nat scalerA.
by rewrite mulVf ?scale1r // pnatr_eq0.
Qed.

(** The projection step on a U with orthonormal columns. *)
Lemma projection_step n p (U Delta : 'M[F]_(n, p)) :
  U^T *m U = 1%:M ->
  U^T *m (Delta - U *m skew (U^T *m Delta))
  = 2^-1 *: (U^T *m Delta + (U^T *m Delta)^T).
Proof.
move=> UTU; rewrite mulmxBr mulmxA UTU mul1mx.
by rewrite {1}[U^T *m Delta]skew_sym_parts addrC addKr.
Qed.

Section Steps.

Variables (n p : nat) (alpha : F) (U Delta V : 'M[F]_(n, p)).

Let A0 := 2^-1 *: (U^T *m Delta - (U^T *m Delta)^T).
Let dA0 := 2^-1 *: (U^T *m V - (U^T *m V)^T).
Let X0 := Delta - U *m A0.
Let Y0 := V - U *m dA0.

(** X7. Step 0 on a U with orthonormal columns.  The arrays X0 and Y0 that
    [Stiefel_diff_exp] runs the QR step on keep, along U, the symmetric parts
    of U^T Delta and U^T V; X0 is the projection (I - U U^T) Delta named in
    the source exactly when U^T Delta is skew-symmetric. *)
Theorem projection_along_U :
  U^T *m U = 1%:M ->
  [/\ U^T *m X0 = 2^-1 *: (U^T *m Delta + (U^T *m Delta)^T),
      U^T *m Y0 = 2^-1 *: (U^T *m V + (U^T *m V)^T),
      (X0 == Delta - U *m (U^T *m Delta))
      = ((U^T *m Delta)^T == - (U^T *m Delta))
    & result (Stiefel_diff_exp n p alpha) (ExpArgs U Delta V) =
      match result (Stiefel_diff_QR n p) (QRArgs X0 Y0) with
      | Raise e => Raise e
      | Return (Q, dQ, R, dR) =>
          if alpha + 1 == 0 then Raise ZeroDivisionError
          else Return (exp_derivative expm alpha U A0 dA0 Q dQ R dR)
      end].
Proof.
move=> UTU; split.
- exact: projection_step.
- exact: projection_step.
- rewrite /X0; apply/eqP/eqP=> [/addrI/oppr_inj/(congr1 (mulmx U^T))|skewD].
    by rewrite !mulmxA UTU !mul1mx => <-; apply: skew_is_skew.
  rewrite /A0 skewD opprK -mulr2n -scaler_nat scalerA mulVf ?scale1r //.
  by rewrite pnatr_eq0.
- rewrite {1}/result Stiefel_diff_exp_run /= /skew -/A0 -/dA0 -/X0 -/Y0.
  by case: (result _ _) => [[[[Q dQ] R] dR]|e] //=; case: ifP.
Qed.

(** X6. Step 1 once the QR step has returned Q, dQ, R, dR and alpha is not
    -1.  The arrays [Stiefel_diff_exp] hands to [diff_expm],
    M = [[v A0, -R^T], [R, 0]] and dM = [[v dA0, -dR^T], [dR, 0]] with
    v = 1/(alpha + 1), and mu A0 and mu dA0 with mu = alpha/(alpha + 1), are
    skew-symmetric for every U, Delta and V, and the call returns the
    combination of what [diff_expm] returns on them. *)
Theorem exp_blocks_skew (Q dQ : 'M[F]_(n, p)) (R dR : 'M[F]_p) :
  result (Stiefel_diff_QR n p) (QRArgs X0 Y0) = Return (Q, dQ, R, dR) ->
  alpha != -1 ->
  let v := 1 / (alpha + 1) in
  let mu := alpha / (alpha + 1) in
  let M_ := block_mx (v *: A0) (- R^T) R 0 in
  let dM := block_mx (v *: dA0) (- dR^T) dR 0 in
  [/\ M_^T = - M_ /\ dM^T = - dM,
      (mu *: A0)^T = - (mu *: A0) /\ (mu *: dA0)^T = - (mu *: dA0)
    & exists (expM dexpM : 'M[F]_(p + p)) (expA dexpA : 'M[F]_p),
        [/\ result (diff_expm expm (p + p)) (ExpmArgs M_ dM)
            = Return (expM, dexpM),
            result (diff_expm expm p) (ExpmArgs (mu *: A0) (mu *: dA0))
            = Return (expA, dexpA)
          & result (Stiefel_diff_exp n p alpha) (ExpArgs U Delta V)
            = Return (if (`|alpha| > tol) && (`|alpha + 1| > tol)
                      then general_combination U Q dQ expM dexpM expA dexpA
                      else canonical_combination U Q dQ expM dexpM)]].
Proof.
rewrite -subr_eq0 opprK => QRE /negPf neq0 /=.
have skewA : A0^T = - A0 by exact: skew_is_skew.
have skewdA : dA0^T = - dA0 by exact: skew_is_skew.
have block (c : F) (B T : 'M[F]_p) :
    B^T = - B -> (block_mx (c *: B) (- T^T) T 0)^T
                 = - block_mx (c *: B) (- T^T) T 0.
  move=> BT; rewrite tr_block_mx opp_block_mx linearN /= trmxK trmx0.
  by rewrite oppr0 opprK linearZ /= BT scalerN.
have scaled (c : F) (B : 'M[F]_p) : B^T = - B -> (c *: B)^T = - (c *: B).
  by move=> BT; rewrite linearZ /= BT scalerN.
split.
- by split; apply: block.
- by split; apply: scaled.
- do 4![eexists]; split.
  + by rewrite /result diff_expm_frame.
  + by rewrite /result diff_expm_frame.
  + rewrite {1}/result Stiefel_diff_exp_run /= /skew -/A0 -/dA0 -/X0 -/Y0.
    by rewrite QRE neq0 /= /exp_derivative; case: ifP.
Qed.

(** The outcome of a call whose QR step fails. *)
Lemma Stiefel_diff_exp_singular :
  solve_triangular_contract -> qr_contract X0 -> (p <= n)%N ->
  ~~ row_full X0 ->
  result (Stiefel_diff_exp n p alpha) (ExpArgs U Delta V) = Raise LinAlgError.
Proof.
move=> solveP qrP lepn not_full.
rewrite /result Stiefel_diff_exp_run /= /skew -/A0 -/dA0 -/X0 -/Y0.
by rewrite (Stiefel_diff_QR_singular qr_leaves Y0 solveP qrP lepn not_full).
Qed.

(** X8. When X0 = Delta - U A0 is not of full column rank the call ends in
    [LinAlgError], for every alpha and every direction V, and [linalg.expm] is
    never called. *)
Theorem Stiefel_diff_exp_rank_deficient :
  solve_triangular_contract -> qr_contract X0 -> (p <= n)%N ->
  ~~ row_full X0 ->
  result (Stiefel_diff_exp n p alpha) (ExpArgs U Delta V) = Raise LinAlgError
  /\ called (Stiefel_diff_exp n p alpha) (ExpArgs U Delta V)
     = [:: Call_qr n p; Call_solve_triangular p].
Proof.
move=> solveP qrP lepn not_full.
have := Stiefel_diff_exp_singular solveP qrP lepn not_full.
rewrite /called /result Stiefel_diff_exp_run /=.
by case: (result _ _) => [[[[Q dQ] R] dR]|e] //=; case: ifP.
Qed.

(** X9. The library calls of a run: a run that fails makes the two calls of
    the QR step and never reaches [linalg.expm]; a run that returns calls
    [linalg.expm] once on the canonical metric, |alpha| <= 1e-10, and twice
    off it. *)
Theorem Stiefel_diff_exp_calls :
  called (Stiefel_diff_exp n p alpha) (ExpArgs U Delta V)
  = [:: Call_qr n p; Call_solve_triangular p]
    ++ (if fails (result (Stiefel_diff_exp n p alpha) (ExpArgs U Delta V))
        then [::]
        else Call_expm (p + p + (p + p))
             :: (if `|alpha| > tol then [:: Call_expm (p + p)] else [::])).
Proof.
rewrite /called /result Stiefel_diff_exp_run /=.
case: (result _ _) => [[[[Q dQ] R] dR]|e] //=.
by case: ifP => //= _; rewrite /exp_calls; case: ifP.
Qed.

End Steps.

(** X11. At Delta = 0 the call fails: X0 is the zero array and its triangular
    factor is singular. *)
Theorem Stiefel_diff_exp_zero_tangent n p alpha (U V : 'M[F]_(n, p)) :
  solve_triangular_contract -> qr_contract (0 : 'M[F]_(n, p)) ->
  (0 < p <= n)%N ->
  result (Stiefel_diff_exp n p alpha) (ExpArgs U 0 V) = Raise LinAlgError.
Proof.
move=> solveP qrP /andP[p_gt0 lepn].
have X0E : 0 - U *m (2^-1 *: (U^T *m 0 - (U^T *m 0)^T)) = 0 :> 'M[F]_(n, p).
  by rewrite mulmx0 trmx0 subrr scaler0 mulmx0 subrr.
apply: Stiefel_diff_exp_singular => //; rewrite X0E //.
by rewrite /row_full mxrank0 eq_sym -lt0n p_gt0.
Qed.

(** X12. A tangent Delta at a U with orthonormal columns leaves X0 in the
    orthogonal complement of U, of rank at most n - p: for n < 2p the call
    fails on every such input. *)
Theorem Stiefel_diff_exp_narrow n p alpha (U Delta V : 'M[F]_(n, p)) :
  let X0 := Delta - U *m (2^-1 *: (U^T *m Delta - (U^T *m Delta)^T)) in
  solve_triangular_contract -> qr_contract X0 ->
  U^T *m U = 1%:M -> (U^T *m Delta)^T = - (U^T *m Delta) ->
  (p <= n < p + p)%N ->
  result (Stiefel_diff_exp n p alpha) (ExpArgs U Delta V) = Raise LinAlgError.
Proof.
move=> X0 solveP qrP UTU skewD /andP[lepn ltn2p].
apply: Stiefel_diff_exp_singular => //.
have UX0 : U^T *m X0 = 0.
  by rewrite /X0 -/(skew _) projection_step // skewD addrN scaler0.
have rkU : \rank U^T = p.
  apply/eqP; rewrite eqn_leq rank_leq_row /=.
  by rewrite -{1}(mxrank1 F p) -UTU mxrankM_maxl.
have := mulmx0_rank_max UX0; rewrite rkU => le_n.
rewrite /row_full neq_ltn; apply/orP; left.
by rewrite -(ltn_add2l p); apply: leq_ltn_trans le_n ltn2p.
Qed.

End ExponentialProperties.

(** ** Further properties of diff_expm *)

Section ExpmProperties.

Variable F : realFieldType.

Lemma mx_cvg_lin m n (c : F) (u v : nat -> 'M[F]_(m, n)) (l l' : 'M[F]_(m, n)) :
  mx_cvg u l -> mx_cvg v l' ->
  mx_cvg (fun N => c *: u N + v N) (c *: l + l').
Proof.
move=> cu cv eps eps_gt0.
have c1_gt0 : 0 < `|c| + 1 by rewrite ltr_wpDl.
have e1_gt0 : 0 < eps / 2 / (`|c| + 1) by rewrite !divr_gt0 ?ltr0n.
have e2_gt0 : 0 < eps / 2 by rewrite divr_gt0 ?ltr0n.
have [N1 uP] := cu _ e1_gt0; have [N2 vP] := cv _ e2_gt0.
exists (maxn N1 N2) => N; rewrite geq_max => /andP[le1 le2] i j.
rewrite !mxE opprD addrACA -mulrBr.
rewrite (le_lt_trans (ler_normD _ _)) // [eps]splitr.
apply: ler_ltD (vP N le2 i j); rewrite normrM.
apply: le_trans (_ : `|c| * (eps / 2 / (`|c| + 1)) <= _).
  by rewrite ler_wpM2l // ltW ?uP.
rewrite mulrCA ger_pMr // ler_pdivrMr // mul1r.
by rewrite lerDl.
Qed.

Lemma mx_cvg_shift m n (u : nat -> 'M[F]_(m, n)) l :
  mx_cvg u l -> mx_cvg (fun N => u N.+1) l.
Proof.
move=> cu eps /cu[N0 uP]; exists N0 => N leN i j.
by apply: uP; apply: leq_trans leN _.
Qed.

Lemma mx_cvg_mulmxr m n q (u : nat -> 'M[F]_(m, n)) l (E : 'M[F]_(n, q)) :
  mx_cvg u l -> mx_cvg (fun N => u N *m E) (l *m E).
Proof.
move=> cu eps eps_gt0.
pose B : F := 1 + \sum_k \sum_j `|E k j|.
have sum_ge0 : 0 <= \sum_k \sum_j `|E k j|.
  by apply: sumr_ge0 => k _; apply: sumr_ge0.
have B_gt0 : 0 < B by rewrite ltr_pwDl.
have e1_gt0 : 0 < eps / B by rewrite divr_gt0.
have [N0 uP] := cu _ e1_gt0; exists N0 => N leN i j.
rewrite !mxE -sumrB.
rewrite (le_lt_trans (ler_norm_sum _ _ _)) //.
apply: le_lt_trans (_ : (eps / B) * \sum_k \sum_j `|E k j| < _); last first.
  rewrite -mulrA gtr_pMr // ltr_pdivrMl // mulr1.
  by rewrite /B ltrDr.
rewrite mulr_sumr ler_sum // => k _.
rewrite -mulrBl normrM.
apply: le_trans (_ : eps / B * `|E k j| <= _).
  by rewrite ler_wpM2r // ltW ?uP.
apply: ler_wpM2l; first exact: ltW.
rewrite (bigD1 j) //= lerDl.
by apply: sumr_ge0.
Qed.

Lemma pow_derivative_linear n (M_ E1 E2 : 'M[F]_n) (c : F) k :
  pow_derivative M_ (c *: E1 + E2) k
  = c *: pow_derivative M_ E1 k + pow_derivative M_ E2 k.
Proof.
elim: k => [|k IH] /=; first by rewrite scaler0 addr0.
rewrite IH mulmxDl mulmxDr -scalemxAl -scalemxAr scalerDr.
by rewrite addrACA.
Qed.

Lemma expm_series_derivative_linear n (M_ E1 E2 : 'M[F]_n) (c : F) N :
  expm_series_derivative N M_ (c *: E1 + E2)
  = c *: expm_series_derivative N M_ E1 + expm_series_derivative N M_ E2.
Proof.
rewrite /expm_series_derivative scaler_sumr -big_split /=.
apply: eq_bigr => k _.
by rewrite pow_derivative_linear scalerDr !scalerA mulrC.
Qed.

Lemma pow_derivative_commuting n (M_ E : 'M[F]_n) k :
  M_ *m E = E *m M_ ->
  pow_derivative M_ E k.+1 = k.+1%:R *: (M_ ^+ k *m E).
Proof.
move=> comm; elim: k => [|k IH].
  by rewrite /= mul0mx add0r expr0 scale1r.
rewrite [LHS]/= -/(pow_derivative M_ E k.+1) IH.
rewrite -scalemxAl -mulmxA -comm mulmxA.
have -> : M_ ^+ k *m M_ = M_ ^+ k.+1 by rewrite exprSr.
by rewrite -[X in _ + X]scale1r -scalerDl natr1.
Qed.

Lemma expm_series_derivative_commuting n (M_ E : 'M[F]_n) N :
  M_ *m E = E *m M_ ->
  expm_series_derivative N.+1 M_ E = expm_series N M_ *m E.
Proof.
move=> comm; rewrite /expm_series_derivative /expm_series big_ord_recl /=.
rewrite scaler0 add0r mulmx_suml; apply: eq_bigr => k _.
have -> : bump 0 k = k.+1 by [].
rewrite add0n -/(pow_derivative M_ E k.+1) pow_derivative_commuting // scalerA -scalemxAl.
congr (_ *: _); rewrite factS natrM invfM mulrAC mulVf ?mul1r //.
by rewrite pnatr_eq0.
Qed.

Lemma expm_series_zero n N : expm_series N.+1 (0 : 'M[F]_n) = 1%:M.
Proof.
rewrite /expm_series big_ord_recl /= expr0 fact0 invr1 scale1r big1 ?addr0 //.
by move=> k _; rewrite (_ : bump 0 k = k.+1) // exprS mul0r scaler0.
Qed.

Section Limits.

Variable expm : forall n : nat, 'M[F]_n -> 'M[F]_n.

(** What [diff_expm] returns, as limits. *)
Lemma diff_expm_limits p (M_ dM : 'M[F]_p) :
  expm_contract expm (block_mx M_ dM 0 M_) ->
  exists E dE,
    [/\ result (diff_expm expm p) (ExpmArgs M_ dM) = Return (E, dE),
        mx_cvg (fun N => expm_series N M_) E
      & mx_cvg (fun N => expm_series_derivative N M_ dM) dE].
Proof.
move=> expAux; have [cul cur _ _] := mx_cvg_block expAux.
exists (ulsubmx (expm (block_mx M_ dM 0 M_))).
exists (ursubmx (expm (block_mx M_ dM 0 M_))); split=> //.
  by apply: mx_cvg_ext cul => N; rewrite expm_series_block block_mxKul.
by apply: mx_cvg_ext cur => N; rewrite expm_series_block block_mxKur.
Qed.

(** X13. The derivative [diff_expm] returns is linear in the direction dM, and
    the exponential it returns does not depend on dM. *)
Theorem diff_expm_linear p (M_ dM1 dM2 : 'M[F]_p) (c : F) :
  expm_contract expm (block_mx M_ dM1 0 M_) ->
  expm_contract expm (block_mx M_ dM2 0 M_) ->
  expm_contract expm (block_mx M_ (c *: dM1 + dM2) 0 M_) ->
  exists E d1 d2,
    [/\ result (diff_expm expm p) (ExpmArgs M_ dM1) = Return (E, d1),
        result (diff_expm expm p) (ExpmArgs M_ dM2) = Return (E, d2)
      & result (diff_expm expm p) (ExpmArgs M_ (c *: dM1 + dM2))
        = Return (E, c *: d1 + d2)].
Proof.
move=> /diff_expm_limits[E1 [d1 [r1 cE1 cd1]]].
move=> /diff_expm_limits[E2 [d2 [r2 cE2 cd2]]].
move=> /diff_expm_limits[E3 [d3 [r3 cE3 cd3]]].
exists E1, d1, d2; split=> //.
  by rewrite r2 (mx_cvg_unique cE2 cE1).
rewrite r3 (mx_cvg_unique cE3 cE1); congr (Return (_, _)).
apply: mx_cvg_unique cd3 _.
apply: mx_cvg_ext (mx_cvg_lin c cd1 cd2) => N.
by rewrite expm_series_derivative_linear.
Qed.

(** X14. In a direction dM that commutes with M the derivative is exp(M) dM.
    *)
Theorem diff_expm_commuting p (M_ dM : 'M[F]_p) :
  M_ *m dM = dM *m M_ ->
  expm_contract expm M_ -> expm_contract expm (block_mx M_ dM 0 M_) ->
  result (diff_expm expm p) (ExpmArgs M_ dM)
  = Return (expm M_, expm M_ *m dM).
Proof.
move=> comm expM /diff_expm_limits[E [dE [-> cE cdE]]].
rewrite (mx_cvg_unique cE expM); congr (Return (_, _)).
apply: mx_cvg_unique (mx_cvg_shift cdE) _.
apply: mx_cvg_ext (mx_cvg_mulmxr dM expM) => N.
by rewrite expm_series_derivative_commuting.
Qed.

(** X15. At M = 0 the call returns the identity and the direction itself. *)
Theorem diff_expm_at_zero p (dM : 'M[F]_p) :
  expm_contract expm (block_mx 0 dM 0 0) ->
  result (diff_expm expm p) (ExpmArgs 0 dM) = Return (1%:M, dM).
Proof.
move=> /diff_expm_limits[E [dE [-> cE cdE]]].
have -> : E = 1%:M.
  apply: mx_cvg_unique (mx_cvg_shift cE) _.
  by apply: mx_cvg_ext (mx_cvg_const 1%:M) => N; rewrite expm_series_zero.
congr (Return (_, _)).
apply: mx_cvg_unique (mx_cvg_shift (mx_cvg_shift cdE)) _.
apply: mx_cvg_ext (mx_cvg_const dM) => N.
rewrite expm_series_derivative_commuting; first by rewrite mul0mx mulmx0.
by rewrite expm_series_zero mul1mx.
Qed.

End Limits.

End ExpmProperties.

(** ** Further properties of the SVD derivative *)

Section SVDProperties.

Variable F : realFieldType.
Variables (n m p r : nat).
Variables (Y dY : 'M[F]_(n, m)) (U : 'M[F]_(n, p)) (S : 'rV[F]_p).
Variable V : 'M[F]_(m, p + r).

Let Vp := lsubmx V.
Let Vr := rsubmx V.
Let Si := diag_mx (map_mx (npdiv 1) S).
Let C := U^T *m dY *m Vp.
Let C' := U^T *m dY *m Vr.
Let dS : 'rV[F]_p :=
  \row_k ((col k U)^T *m (dY *m col (lshift r k) V)) 0 0.
Let entry (j k : 'I_p) :=
  npdiv (S 0 j * C j k + S 0 k * C k j) ((S 0 k + S 0 j) * (S 0 k - S 0 j)).
Let Alpha : 'M[F]_p :=
  \matrix_(j, k) if (j < k)%N then entry j k
                 else if (k < j)%N then - entry k j else 0.
Let Alpha_mp : 'M[F]_(r, p) := \matrix_(j, k) npdiv (C' k j) (S 0 k).
Let W := dY *m (Vp *m Si).
Let X := (diag_mx S *m Alpha - diag_mx dS) *m Si.
Let B := U^T *m W + X.
Let full := (m == p + r)%N && (p < m)%N.
Let dV := if full then Vp *m Alpha + Vr *m Alpha_mp else Vp *m Alpha.

(** The six values of the call. *)
Lemma Stiefel_diff_SVD_values :
  result (Stiefel_diff_SVD n m p r) (SVDArgs Y dY U S V)
  = Return (W - U *m (U^T *m W), 2^-1 *: (B - B^T), W + U *m X, Alpha, dS, dV).
Proof.
by rewrite /result /= /dV /full; case: ifP.
Qed.

Lemma SVD_Alpha_skew : Alpha^T = - Alpha.
Proof.
apply/matrixP=> j k; rewrite !mxE.
by case: (ltngtP j k) => _; rewrite ?opprK ?oppr0.
Qed.

Lemma SVD_dS_diagonal k : dS 0 k = C k k.
Proof.
rewrite /dS mxE -col_lsubmx -/Vp tr_col [col k Vp]colE !mulmxA -!row_mul -/C.
by rewrite -colE !mxE.
Qed.

Lemma SVD_Sinv_S : nonzero_spectrum S -> Si *m diag_mx S = 1%:M.
Proof.
move=> /forallP S0; rewrite /Si mulmx_diag -diag_const_mx; congr diag_mx.
by apply/rowP=> k; rewrite !mxE /npdiv div1r mulVf.
Qed.

Lemma SVD_dYVSinv_S : nonzero_spectrum S -> W *m diag_mx S = dY *m Vp.
Proof. by move=> S0; rewrite /W -!mulmxA SVD_Sinv_S // mulmx1. Qed.

Lemma SVD_X_S :
  nonzero_spectrum S -> X *m diag_mx S = diag_mx S *m Alpha - diag_mx dS.
Proof. by move=> S0; rewrite /X -mulmxA SVD_Sinv_S // mulmx1. Qed.

Lemma SVD_S_Alpha_mp : nonzero_spectrum S -> diag_mx S *m Alpha_mp^T = C'.
Proof.
move=> /forallP S0; apply/matrixP=> k j.
by rewrite mul_diag_mx !mxE /npdiv mulrC divfK.
Qed.

(** The polynomial identity behind the skew-symmetry of U^T dU. *)
Lemma SVD_skew_entry (a b x y q : F) :
  (x + a * q) * a + (y - b * q) * b
  = a * x + b * y - q * ((b + a) * (b - a)).
Proof.
rewrite [(b + a) * _]mulrC -subr_sqr !mulrDl mulNr mulrBr opprB.
rewrite [x * a]mulrC [y * b]mulrC [a * q * a]mulrAC [b * q * b]mulrAC -!expr2.
by rewrite [a ^+ 2 * q]mulrC [b ^+ 2 * q]mulrC addrACA.
Qed.

Lemma SVD_UTdU_skew : nonzero_spectrum S -> separated_spectrum S -> B^T = - B.
Proof.
move=> /forallP S0 /forallP sep.
have BE j k : B j k = (C j k + S 0 j * Alpha j k - dS 0 j *+ (j == k)) / S 0 k.
  rewrite /B /W /X /Si !mulmxA -/C -mulmxDl mul_mx_diag mul_diag_mx.
  rewrite mxE [X in _ * X]mxE /npdiv div1r; congr (_ / _).
  rewrite [LHS]mxE [X in _ + X]mxE [X in _ + (X + _)]mxE.
  by rewrite [X in _ + (_ + X)]mxE [diag_mx dS j k]mxE addrA.
have off (j k : 'I_p) : (j < k)%N -> B k j = - B j k.
  move=> ltjk; rewrite !BE.
  have neq : j != k by rewrite neq_ltn ltjk.
  rewrite (negPf neq) eq_sym (negPf neq) !mulr0n !subr0.
  rewrite [Alpha k j]mxE [Alpha j k]mxE.
  rewrite ltjk ltnNge (ltnW ltjk) /=.
  have /implyP/(_ ltjk) d0 := forallP (sep j) k.
  rewrite /entry; set d := (S 0 k + S 0 j) * _ in d0 *; set N := S 0 j * _ + _.
  apply/eqP; rewrite -mulNr eqr_div ?S0 // -subr_eq0 mulNr opprK.
  rewrite /entry /npdiv -/d -/N mulrN addrC SVD_skew_entry -/d -/N.
  by rewrite divfK // subrr.
apply/matrixP=> j k; rewrite [LHS]mxE [RHS]mxE.
case: (ltngtP j k) => [ltjk|ltkj|/val_inj ->]; first exact: off.
  by rewrite [B j k]off // opprK.
rewrite BE eqxx mulr1n [Alpha k k]mxE ltnn SVD_dS_diagonal mulr0 addr0 subrr mul0r.
by rewrite oppr0.
Qed.

(** X16. The derivatives put back together: with every divisor nonzero, dU S
    V_p^T + U dS V_p^T + U S dV^T is dY V_p V_p^T, plus U U^T dY V_r V_r^T
    when the full V was given. *)
Theorem Stiefel_diff_SVD_product_rule :
  nonzero_spectrum S -> separated_spectrum S ->
  exists dU_bot A dU Alpha dS dV,
    result (Stiefel_diff_SVD n m p r) (SVDArgs Y dY U S V)
    = Return (dU_bot, A, dU, Alpha, dS, dV)
    /\ dU *m diag_mx S *m (lsubmx V)^T + U *m diag_mx dS *m (lsubmx V)^T
       + U *m diag_mx S *m dV^T
       = dY *m lsubmx V *m (lsubmx V)^T
         + (if (m == p + r)%N && (p < m)%N
            then U *m U^T *m dY *m rsubmx V *m (rsubmx V)^T else 0).
Proof.
move=> S0 _; do 6![eexists]; split; first exact: Stiefel_diff_SVD_values.
rewrite -/Vp -/Vr -/full mulmxDl SVD_dYVSinv_S // -[U *m X *m _]mulmxA SVD_X_S //.
rewrite [U *m (_ - _)]mulmxBr mulmxDl mulmxBl -!addrA; congr (_ + _).
rewrite addKr /dV; case: full.
  rewrite [(_ + _)^T]linearD /= !trmx_mul SVD_Alpha_skew mulmxDr mulNmx mulmxN.
  rewrite !mulmxA addrA subrr add0r -[U *m diag_mx S *m _]mulmxA SVD_S_Alpha_mp //.
  by rewrite /C' !mulmxA.
by rewrite trmx_mul SVD_Alpha_skew mulNmx mulmxN !mulmxA subrr.
Qed.

(** X17. The check of the module's test code: for a square orthogonal V and
    a dY whose columns along the discarded right singular vectors lie in the
    range of U, the three terms add up to dY. *)
Theorem Stiefel_diff_SVD_reconstruction :
  nonzero_spectrum S -> separated_spectrum S ->
  (m == p + r)%N -> V *m V^T = 1%:M ->
  U *m U^T *m dY *m rsubmx V = dY *m rsubmx V ->
  exists dU_bot A dU Alpha dS dV,
    result (Stiefel_diff_SVD n m p r) (SVDArgs Y dY U S V)
    = Return (dU_bot, A, dU, Alpha, dS, dV)
    /\ dU *m diag_mx S *m (lsubmx V)^T + U *m diag_mx dS *m (lsubmx V)^T
       + U *m diag_mx S *m dV^T = dY.
Proof.
move=> S0 _ mE VVT range; do 6![eexists].
split; first exact: Stiefel_diff_SVD_values.
have VV : Vp *m Vp^T + Vr *m Vr^T = 1%:M.
  by rewrite -VVT -[V in RHS]hsubmxK tr_row_mx mul_row_col.
rewrite -/Vp mulmxDl SVD_dYVSinv_S // -[U *m X *m _]mulmxA SVD_X_S //.
rewrite [U *m (_ - _)]mulmxBr mulmxDl mulmxBl -!addrA addKr.
rewrite -[RHS]mulmx1 -VV mulmxDr; congr (_ + _); first by rewrite mulmxA.
rewrite /dV /full mE /=; case: ltnP => [_|lemp].
  rewrite [(_ + _)^T]linearD /= !trmx_mul SVD_Alpha_skew mulmxDr mulNmx mulmxN.
  rewrite !mulmxA addrA subrr add0r -[U *m diag_mx S *m _]mulmxA SVD_S_Alpha_mp //.
  by rewrite /C' !mulmxA range.
have : (p + r <= p)%N by rewrite -(eqP mE).
rewrite -{2}[p]addn0 leq_add2l leqn0 => /eqP r0.
rewrite trmx_mul SVD_Alpha_skew mulNmx mulmxN !mulmxA subrr.
have -> : Vr = 0.
  by apply/matrixP=> i [j ltj]; have : (j < 0)%N by rewrite -r0.
by rewrite mulmx0 mul0mx.
Qed.

(** X18. With orthonormal columns of U and every divisor nonzero, dU is a
    tangent vector at U: dU_bot is normal to U, the returned A is U^T dU and
    is skew-symmetric, and dU = dU_bot + U A. *)
Theorem Stiefel_diff_SVD_tangent :
  U^T *m U = 1%:M -> nonzero_spectrum S -> separated_spectrum S ->
  exists dU_bot A dU Alpha dS dV,
    [/\ result (Stiefel_diff_SVD n m p r) (SVDArgs Y dY U S V)
        = Return (dU_bot, A, dU, Alpha, dS, dV),
        U^T *m dU_bot = 0, U^T *m dU = A,
        (U^T *m dU)^T = - (U^T *m dU) & dU = dU_bot + U *m A].
Proof.
move=> UTU S0 sep; do 6![eexists].
have AE : 2^-1 *: (B - B^T) = B.
  rewrite SVD_UTdU_skew // opprK -mulr2n -scaler_nat scalerA mulVf ?scale1r //.
  by rewrite pnatr_eq0.
have UTdU : U^T *m (W + U *m X) = B by rewrite mulmxDr mulmxA UTU mul1mx.
split; first exact: Stiefel_diff_SVD_values.
- by rewrite mulmxBr mulmxA UTU mul1mx subrr.
- by rewrite UTdU AE.
- by rewrite UTdU SVD_UTdU_skew.
- by rewrite AE /B mulmxDr addrA subrK.
Qed.

(** X19. With orthonormal columns of V and every divisor nonzero, dV is a
    tangent vector at V_p: V_p^T dV is the returned Alpha, which is
    skew-symmetric. *)
Theorem Stiefel_diff_SVD_dV_tangent :
  V^T *m V = 1%:M -> nonzero_spectrum S -> separated_spectrum S ->
  exists dU_bot A dU Alpha dS dV,
    [/\ result (Stiefel_diff_SVD n m p r) (SVDArgs Y dY U S V)
        = Return (dU_bot, A, dU, Alpha, dS, dV),
        (lsubmx V)^T *m dV = Alpha & Alpha^T = - Alpha].
Proof.
move=> VTV _ _; do 6![eexists].
split; [exact: Stiefel_diff_SVD_values| |exact: SVD_Alpha_skew].
move: VTV; rewrite -{1 2}[V]hsubmxK -/Vp -/Vr tr_row_mx mul_col_row.
rewrite scalar_mx_block => /eq_block_mx[pp pr _ _].
rewrite /dV; case: full; last by rewrite mulmxA pp mul1mx.
by rewrite mulmxDr !mulmxA pp pr mul1mx mul0mx addr0.
Qed.

End SVDProperties.

(** ** The reference collaborators meet the contracts *)

Section Reference.

Variable F : realFieldType.

Local Abbreviation ref_qr := (@ref_qr F).
Local Abbreviation ref_qr_leaves := (@ref_qr_leaves F).
Local Abbreviation ref_solve_triangular := (@ref_solve_triangular F).
Local Abbreviation ref_expm := (@ref_expm F).

Lemma ref_solve_triangularP : solve_triangular_contract ref_solve_triangular.
Proof.
move=> p R B _; rewrite /ref_solve_triangular.
case Runit: (R \in unitmx) => //.
by exists (invmx R *m B); rewrite ?mulKVmx.
Qed.

Lemma ref_qr_trapezoid p r (T : 'M[F]_p) :
  ref_qr (col_mx T (0 : 'M[F]_(r, p))) = (col_mx 1%:M 0, T).
Proof.
rewrite /ref_qr pid_mx_col tr_col_mx mul_row_col trmx1 mul1mx.
by rewrite trmx0 mul0mx addr0.
Qed.

Lemma ref_qr_contract p r (T : 'M[F]_p) :
  upper_triangular T -> qr_contract ref_qr (col_mx T (0 : 'M[F]_(r, p))).
Proof.
move=> Tupper; rewrite /qr_contract ref_qr_trapezoid /=; split=> //.
  by rewrite mul_col_mx mul1mx mul0mx.
by rewrite tr_col_mx mul_row_col trmx1 mul1mx trmx0 mul0mx addr0.
Qed.

Lemma row_full_trapezoid p r (T : 'M[F]_p) :
  T \in unitmx -> row_full (col_mx T (0 : 'M[F]_(r, p))).
Proof. by move=> Tunit; rewrite /row_full rank_col_mx0 mxrank_unit. Qed.

(** The QR step on such an array. *)
Lemma ref_QR_step p r (T : 'M[F]_p) (Y0 : 'M[F]_(p + r, p)) :
  T \in unitmx ->
  result (Stiefel_diff_QR ref_qr ref_qr_leaves ref_solve_triangular (p + r) p)
         (QRArgs (col_mx T 0) Y0)
  = Return (QR_derivative (col_mx 1%:M 0) T (invmx T *m 1%:M) Y0).
Proof.
move=> Tunit; rewrite /result Stiefel_diff_QR_run ref_qr_trapezoid /=.
by rewrite leq_addr /ref_solve_triangular Tunit.
Qed.

Lemma mx22_upper (a b d : F) : upper_triangular (mx22 a b 0 d).
Proof.
apply/upper_triangularP=> i j; rewrite mxE.
by case: i => [[|[|i]]] //= _; case: j => [[|j]].
Qed.

Lemma mx22_unit (a b d : F) : a != 0 -> d != 0 -> mx22 a b 0 d \in unitmx.
Proof.
move=> a0 d0; rewrite unitmxE -det_tr (det_trig (mx22_upper a b d)) unitfE.
by rewrite !big_ord_recl big_ord0 !mxE /= mulr1 mulf_neq0.
Qed.

Lemma mx22_skew (b : F) : (mx22 0 b (- b) 0)^T = - mx22 0 b (- b) 0.
Proof.
apply/matrixP=> i j; rewrite !mxE.
by case: i => [[|[|i]]] //= _; case: j => [[|[|j]]] //= _; rewrite ?oppr0 ?opprK.
Qed.

Lemma mx22_sym (a d : F) : (mx22 a 0 0 d)^T = mx22 a 0 0 d.
Proof.
apply/matrixP=> i j; rewrite !mxE.
by case: i => [[|[|i]]] //= _; case: j => [[|[|j]]].
Qed.

Lemma tol_lt_half : tol < 2^-1 :> F.
Proof.
rewrite /tol ltf_pV2 ?posrE ?exprn_gt0 ?ltr0n //.
by rewrite (@lt_le_trans _ _ 10%:R) ?ler_eXnr ?ler1n // ltr_nat.
Qed.

Lemma skew_part_of_skew p (K : 'M[F]_p) :
  K^T = - K -> 2^-1 *: (K - K^T) = K.
Proof.
move=> ->; rewrite opprK -mulr2n -scaler_nat scalerA mulVf ?scale1r //.
by rewrite pnatr_eq0.
Qed.

Lemma skew_part_of_sum p (D K : 'M[F]_p) :
  D^T = D -> K^T = - K -> 2^-1 *: (D + K - (D + K)^T) = K.
Proof.
move=> DT KT; rewrite [(D + K)^T]linearD /= DT KT opprD opprK addrACA subrr add0r.
by rewrite -mulr2n -scaler_nat scalerA mulVf ?scale1r // pnatr_eq0.
Qed.

(** The base point U = [0; 1] and a tangent Delta = [T; K], K skew: the
    projection leaves X0 = [T; 0]. *)
Lemma tangent_X0 p (T K : 'M[F]_p) :
  K^T = - K ->
  let U : 'M[F]_(p + p, p) := col_mx 0 1%:M in
  let Delta := col_mx T K in
  Delta - U *m (2^-1 *: (U^T *m Delta - (U^T *m Delta)^T)) = col_mx T 0.
Proof.
move=> KT /=; rewrite tr_col_mx mul_row_col trmx0 mul0mx trmx1 mul1mx add0r.
rewrite skew_part_of_skew // mul_col_mx mul0mx mul1mx opp_col_mx add_col_mx.
by rewrite subr0 subrr.
Qed.

(** The base point U = [1; 0] and Delta = [D + K; 0], D symmetric and K
    skew: U^T Delta = D + K, and the projection leaves X0 = [D; 0]. *)
Lemma nonskew_X0 p (D K : 'M[F]_p) :
  D^T = D -> K^T = - K ->
  let U : 'M[F]_(p + p, p) := col_mx 1%:M 0 in
  let Delta := col_mx (D + K) 0 in
  U^T *m Delta = D + K
  /\ Delta - U *m (2^-1 *: (U^T *m Delta - (U^T *m Delta)^T)) = col_mx D 0.
Proof.
move=> DT KT /=; rewrite tr_col_mx mul_row_col trmx0 mul0mx trmx1 mul1mx addr0.
split=> //; rewrite skew_part_of_sum // mul_col_mx mul0mx mul1mx.
by rewrite opp_col_mx add_col_mx subr0 addrK.
Qed.

(** Past a vanishing power the partial sums of the series are constant. *)
Lemma expm_series_nilpotent n (A : 'M[F]_n) k N :
  A ^+ k = 0 -> (k <= N)%N -> expm_series N A = expm_series k A.
Proof.
move=> Ak0; elim: N => [|N IH]; first by rewrite leqn0 => /eqP->.
rewrite leq_eqVlt => /predU1P[-> //|]; rewrite ltnS => leqkN.
rewrite /expm_series big_ord_recr /= -/(expm_series N A) IH //.
by rewrite -(subnKC leqkN) exprD Ak0 mul0r scaler0 addr0.
Qed.

Lemma ref_expm_contract n (A : 'M[F]_n) :
  A ^+ n.+1 = 0 -> expm_contract (@ref_expm) A.
Proof.
move=> An0 eps eps_gt0; exists n.+1 => N leqnN i j.
by rewrite /ref_expm (expm_series_nilpotent An0 leqnN) subrr normr0.
Qed.

Lemma pow_derivative_nilpotent n (M_ E : 'M[F]_n) k :
  M_ ^+ 2 = 0 -> pow_derivative M_ E k.+4 = 0.
Proof.
move=> M2; have Mk j : M_ ^+ j.+2 = 0 by rewrite -addn2 exprD M2 mulr0.
have MM : M_ *m M_ = 0 by rewrite -M2 expr2.
rewrite [LHS]/= -/(pow_derivative M_ E k.+2) !Mk !mul0mx !addr0.
by rewrite -mulmxA MM mulmx0.
Qed.

(** A metric parameter within the tolerance of -1, and not -1. *)
Lemma near_minus_one :
  [/\ `|-1 + tol| > tol :> F, `|-1 + tol + 1| <= tol :> F & -1 + tol != -1 :> F].
Proof.
have tol0 : 0 < tol :> F by exact: tol_gt0 F.
split.
- rewrite addrC -opprB normrN ger0_norm ?subr_ge0 ?ltW ?tol_lt1 //.
  by rewrite ltrBrDr [X in _ < X](splitr 1) div1r ltrD ?tol_lt_half.
- by rewrite addrAC addNr add0r gtr0_norm.
- by rewrite -subr_eq0 opprK addrAC addNr add0r gt_eqF.
Qed.

Lemma near_pair_gap (e : F) :
  0 < e -> `|near_pair e 0 ord0 - near_pair e 0 ord_max| < e.
Proof.
move=> e_gt0; rewrite !mxE /= opprD addrA subrr sub0r normrN.
by rewrite gtr0_norm ?divr_gt0 ?ltr0n // ltr_pdivrMr ?ltr0n // ltr_pMr // ltr1n.
Qed.

Lemma zero_pair_zero : zero_pair F 0 ord_max = 0.
Proof. by rewrite mxE. Qed.

(** After the QR step on [T; 0] the reference routine has left Q there. *)
Lemma ref_QR_leaves p r (T : 'M[F]_p) (V : 'M[F]_(p + r, p)) :
  arg_A0 (after (Stiefel_diff_QR ref_qr ref_qr_leaves ref_solve_triangular
                   (p + r) p) (QRArgs (col_mx T 0) V))
  = col_mx 1%:M 0.
Proof.
by rewrite /after Stiefel_diff_QR_frame /= /ref_qr_leaves ref_qr_trapezoid.
Qed.

Lemma mx22_neq1 (a b c d : F) : a != 1 -> mx22 a b c d != 1%:M.
Proof.
move=> a1; apply: contra a1 => /eqP/matrixP/(_ ord0 ord0).
by rewrite !mxE /= => ->.
Qed.

(** *** Arrays of the further examples *)

Lemma mx22_singular (b d : F) : mx22 0 b 0 d \notin unitmx.
Proof.
rewrite unitmxE -det_tr (det_trig (mx22_upper 0 b d)) unitfE.
by rewrite !big_ord_recl big_ord0 !mxE /= mul0r eqxx.
Qed.

Lemma rank_deficient_trapezoid p r (T : 'M[F]_p) :
  T \notin unitmx -> ~~ row_full (col_mx T (0 : 'M[F]_(r, p))).
Proof. by rewrite /row_full rank_col_mx0 -/(row_full T) row_full_unit. Qed.

Lemma upper_triangular0 p : upper_triangular (0 : 'M[F]_p).
Proof. by apply/upper_triangularP=> i j _; rewrite mxE. Qed.

Lemma ref_qr_contract0 p r : qr_contract ref_qr (0 : 'M[F]_(p + r, p)).
Proof.
have -> : (0 : 'M[F]_(p + r, p)) = col_mx (0 : 'M[F]_p) 0 by rewrite col_mx0.
exact: ref_qr_contract (upper_triangular0 p).
Qed.

Lemma unit_columns p r :
  (col_mx 1%:M (0 : 'M[F]_(r, p)))^T *m col_mx 1%:M 0 = 1%:M.
Proof. by rewrite tr_col_mx mul_row_col trmx1 mul1mx trmx0 mul0mx addr0. Qed.

Lemma identity_orthogonal n :
  (1%:M : 'M[F]_n) *m 1%:M^T = 1%:M /\ (1%:M : 'M[F]_n)^T *m 1%:M = 1%:M.
Proof. by rewrite trmx1 mulmx1. Qed.

Lemma empty_columns n (A B : 'M[F]_(n, 0)) : A = B.
Proof. by rewrite [A]thinmx0 [B]thinmx0. Qed.

(** The base point U = [1; 0] and the tangent Delta = [K; 0], K skew:
    U^T Delta = K, and the projection leaves X0 = 0. *)
Lemma tangent_along_U p r (K : 'M[F]_p) :
  K^T = - K ->
  let U : 'M[F]_(p + r, p) := col_mx 1%:M 0 in
  let Delta : 'M[F]_(p + r, p) := col_mx K 0 in
  (U^T *m Delta)^T = - (U^T *m Delta)
  /\ Delta - U *m (2^-1 *: (U^T *m Delta - (U^T *m Delta)^T)) = 0.
Proof.
move=> KT /=; rewrite tr_col_mx mul_row_col trmx0 mul0mx trmx1 mul1mx addr0.
split=> //; rewrite skew_part_of_skew // mul_col_mx mul0mx mul1mx.
by rewrite subrr.
Qed.

(** The block matrix of [diff_expm] at a 2 x 2 array of square zero. *)
Lemma ref_expm_contract_block (M_ E : 'M[F]_2) :
  M_ ^+ 2 = 0 -> expm_contract ref_expm (block_mx M_ E 0 M_).
Proof.
move=> M2; have Mk j : M_ ^+ j.+2 = 0 by rewrite -(addn2 j) exprD M2 mulr0.
apply: ref_expm_contract; rewrite block_pow Mk.
by rewrite (pow_derivative_nilpotent E 1 M2) block_mx0.
Qed.

Lemma mx22_sqr0 (b : F) : mx22 0 b 0 0 ^+ 2 = 0.
Proof.
rewrite expr2 -mulmxE; apply/matrixP=> i j.
rewrite !mxE !big_ord_recl big_ord0 !mxE /=.
case: i => [[|[|i]]] //= _; case: j => [[|[|j]]] //= _;
  by rewrite ?mul0r ?mulr0 ?addr0.
Qed.

Lemma two_one_nonzero : nonzero_spectrum (two_one F).
Proof.
apply/forallP=> k; rewrite mxE; case: ifP => _; last exact: oner_neq0.
by rewrite pnatr_eq0.
Qed.

Lemma two_one_separated : separated_spectrum (two_one F).
Proof.
apply/forallP=> j; apply/forallP=> k; apply/implyP; rewrite !mxE.
case: j => [[|[|j]]] //= _; case: k => [[|[|k]]] //= _ _.
rewrite mulf_neq0 //; first by rewrite gt_eqF // addr_gt0 ?ltr01 ?ltr0n.
by rewrite lt_eqF // subr_lt0 ltr1n.
Qed.

Lemma const_nonzero p (a : F) :
  a != 0 -> nonzero_spectrum (const_mx a : 'rV[F]_p).
Proof. by move=> a0; apply/forallP=> k; rewrite mxE. Qed.

Lemma single_separated (S : 'rV[F]_1) : separated_spectrum S.
Proof.
apply/forallP=> j; apply/forallP=> k; apply/implyP.
by rewrite [j]ord1 [k]ord1.
Qed.

(** The values of the QR step, by component. *)
Lemma QR_derivative_components n p (Q V : 'M[F]_(n, p)) (R X : 'M[F]_p) :
  QR_derivative Q R X V
  = (Q, (QR_derivative Q R X V).1.1.2, R, (QR_derivative Q R X V).2).
Proof. by []. Qed.

Lemma ref_QR_step_components p r (T : 'M[F]_p) (Y0 : 'M[F]_(p + r, p)) :
  T \in unitmx ->
  let out := QR_derivative (col_mx 1%:M 0) T (invmx T *m 1%:M) Y0 in
  result (Stiefel_diff_QR ref_qr ref_qr_leaves ref_solve_triangular (p + r) p)
         (QRArgs (col_mx T 0) Y0)
  = Return (col_mx 1%:M 0, out.1.1.2, T, out.2).
Proof. by move=> Tunit; rewrite ref_QR_step. Qed.

Lemma ref_expm_contract_sqr0 (M_ : 'M[F]_2) :
  M_ ^+ 2 = 0 -> expm_contract ref_expm M_.
Proof.
by move=> M2; apply: ref_expm_contract; rewrite exprS M2 mulr0.
Qed.

Lemma zero_sqr0 : (0 : 'M[F]_2) ^+ 2 = 0.
Proof. by rewrite expr2 mulr0. Qed.

Lemma two_neq0 : 2 != 0 :> F.
Proof. by rewrite pnatr_eq0. Qed.

Lemma zero_neq_opp1 : 0 != -1 :> F.
Proof. by rewrite eq_sym oppr_eq0 oner_neq0. Qed.

End Reference.

(** ** Worked examples over the rationals *)

Section Examples.

Local Abbreviation QR_ref :=
  (Stiefel_diff_QR (@ref_qr rat) (@ref_qr_leaves rat)
     (@ref_solve_triangular rat)).
Local Abbreviation exp_ref :=
  (Stiefel_diff_exp (@ref_qr rat) (@ref_qr_leaves rat)
     (@ref_solve_triangular rat) (@ref_expm rat)).

Lemma T_ex_unit : T_ex \in unitmx.
Proof. exact: mx22_unit. Qed.

Lemma D_ex_unit : D_ex \in unitmx.
Proof. exact: mx22_unit. Qed.

Lemma tangent_QR_step :
  result (QR_ref (2 + 2) 2) (QR_args_ex U_ex Delta_ex V_ex)
  = Return (QR_ex.1.1.1, QR_ex.1.1.2, QR_ex.1.2, QR_ex.2).
Proof.
rewrite /QR_args_ex /U_ex /Delta_ex tangent_X0 ?mx22_skew //.
by rewrite ref_QR_step ?T_ex_unit.
Qed.

Lemma nonskew_QR_step :
  result (QR_ref (2 + 2) 2) (QR_args_ex U_ex' Delta_ex' V_ex)
  = Return (QR_ex'.1.1.1, QR_ex'.1.1.2, QR_ex'.1.2, QR_ex'.2).
Proof.
rewrite /QR_args_ex /U_ex' /Delta_ex'.
have [_ ->] := nonskew_X0 (mx22_sym 2 3 : D_ex^T = D_ex)
                          (mx22_skew 1 : K_ex^T = - K_ex).
by rewrite ref_QR_step ?D_ex_unit.
Qed.

(** Witness of C1. *)
Lemma Stiefel_diff_QR_reconstruction_example :
  [/\ solve_triangular_contract (@ref_solve_triangular rat),
      qr_contract (@ref_qr rat) A0_ex, row_full A0_ex
    & exists Q dQ R dR,
        result (QR_ref (2 + 2) 2) (QRArgs A0_ex V_ex) = Return (Q, dQ, R, dR)
        /\ dQ *m R + Q *m dR = V_ex].
Proof.
have solveP := @ref_solve_triangularP rat.
have qrP : qr_contract (@ref_qr rat) A0_ex.
  exact: ref_qr_contract (mx22_upper _ _ _).
have fullA : row_full A0_ex by exact: row_full_trapezoid T_ex_unit.
by split=> //; apply: Stiefel_diff_QR_reconstruction.
Defined.

(** Witness of C4. *)
Lemma Stiefel_diff_QR_tangent_example :
  [/\ solve_triangular_contract (@ref_solve_triangular rat),
      qr_contract (@ref_qr rat) A0_ex, row_full A0_ex
    & exists Q dQ R dR,
        result (QR_ref (2 + 2) 2) (QRArgs A0_ex V_ex) = Return (Q, dQ, R, dR)
        /\ Q^T *m dQ + (Q^T *m dQ)^T = 0].
Proof.
have solveP := @ref_solve_triangularP rat.
have qrP : qr_contract (@ref_qr rat) A0_ex.
  exact: ref_qr_contract (mx22_upper _ _ _).
have fullA : row_full A0_ex by exact: row_full_trapezoid T_ex_unit.
by split=> //; apply: Stiefel_diff_QR_tangent.
Defined.

(** C7 at alpha = 0, on the tangent example. *)
Lemma Stiefel_diff_exp_canonical_example :
  `|0 : rat| <= tol
  /\ exists expM dexpM : 'M[rat]_(2 + 2),
       result (exp_ref (2 + 2) 2 0) (ExpArgs U_ex Delta_ex V_ex)
       = Return (QR_ex.1.1.2 *m dsubmx (lsubmx expM)
                 + U_ex *m usubmx (lsubmx dexpM)
                 + QR_ex.1.1.1 *m dsubmx (lsubmx dexpM)).
Proof.
have le0 : `|0 : rat| <= tol by rewrite normr0; apply/ltW/tol_gt0.
split; first exact: le0.
have [expM [dexpM [_ E]]] :=
  @Stiefel_diff_exp_canonical rat (@ref_qr rat) (@ref_qr_leaves rat)
    (@ref_solve_triangular rat) (@ref_expm rat) (2 + 2) 2 0
    U_ex Delta_ex V_ex _ _ _ _ le0 tangent_QR_step.
exists expM, dexpM; exact: E.
Defined.

Lemma nonskew_example :
  (U_ex'^T *m Delta_ex')^T != - (U_ex'^T *m Delta_ex').
Proof.
have [-> _] := nonskew_X0 (mx22_sym 2 3 : D_ex^T = D_ex)
                          (mx22_skew 1 : K_ex^T = - K_ex).
apply/eqP=> /matrixP/(_ ord0 ord0); rewrite !mxE /= addr0 => /eqP.
by rewrite -subr_eq0 opprK -mulr2n mulrn_eq0 pnatr_eq0.
Qed.

(** C9 at alpha = 0, on the input that is not tangent. *)
Lemma Stiefel_diff_exp_symmetrizes_example :
  (U_ex'^T *m Delta_ex')^T != - (U_ex'^T *m Delta_ex')
  /\ result (exp_ref (2 + 2) 2 0) (ExpArgs U_ex' Delta_ex' V_ex)
     = Return (exp_derivative (@ref_expm rat) 0 U_ex'
                 (2^-1 *: (U_ex'^T *m Delta_ex' - (U_ex'^T *m Delta_ex')^T))
                 (2^-1 *: (U_ex'^T *m V_ex - (U_ex'^T *m V_ex)^T))
                 QR_ex'.1.1.1 QR_ex'.1.1.2 QR_ex'.1.2 QR_ex'.2).
Proof.
split; first exact: nonskew_example.
have [_ _ ->] :=
  @Stiefel_diff_exp_symmetrizes rat (@ref_qr rat) (@ref_qr_leaves rat)
    (@ref_solve_triangular rat) (@ref_expm rat) (2 + 2) 2 0
    U_ex' Delta_ex' V_ex nonskew_example.
rewrite -/(QR_args_ex U_ex' Delta_ex' V_ex) nonskew_QR_step.
rewrite add0r oner_eq0; exact: erefl.
Defined.

(** C10 at alpha = -1 + 1e-10, on the tangent example. *)
Lemma Stiefel_diff_exp_near_minus_one_example :
  [/\ `|-1 + tol| > tol :> rat, `|-1 + tol + 1| <= tol :> rat,
      -1 + tol != -1 :> rat
    & exists expM dexpM : 'M[rat]_(2 + 2),
        result (exp_ref (2 + 2) 2 (-1 + tol)) (ExpArgs U_ex Delta_ex V_ex)
        = Return (QR_ex.1.1.2 *m dsubmx (lsubmx expM)
                  + U_ex *m usubmx (lsubmx dexpM)
                  + QR_ex.1.1.1 *m dsubmx (lsubmx dexpM))
        /\ called (exp_ref (2 + 2) 2 (-1 + tol)) (ExpArgs U_ex Delta_ex V_ex)
           = [:: Call_qr (2 + 2) 2; Call_solve_triangular 2;
                 Call_expm (2 + 2 + (2 + 2)); Call_expm (2 + 2)]].
Proof.
have [gt_tol le_tol neq] := near_minus_one rat.
have [expM [dexpM [_ E calls]]] :=
  @Stiefel_diff_exp_near_minus_one rat (@ref_qr rat) (@ref_qr_leaves rat)
    (@ref_solve_triangular rat) (@ref_expm rat) (2 + 2) 2 (-1 + tol)
    U_ex Delta_ex V_ex _ _ _ _ gt_tol le_tol neq tangent_QR_step.
split; [exact: gt_tol | exact: le_tol | exact: neq |].
exists expM, dexpM; split; [exact: E | exact: calls].
Defined.

(** C10 does not extend to alpha = -1: both conditions on alpha hold there
    and the call raises [ZeroDivisionError]. *)
Lemma Stiefel_diff_exp_at_minus_one :
  [/\ `|-1| > tol :> rat, `|-1 + 1| <= tol :> rat
    & result (exp_ref (2 + 2) 2 (-1)) (ExpArgs U_ex Delta_ex V_ex)
      = Raise ZeroDivisionError].
Proof.
split.
- rewrite normrN1; exact: tol_lt1.
- rewrite addNr normr0; apply/ltW; exact: tol_gt0.
- rewrite (@Stiefel_diff_exp_result rat (@ref_qr rat) (@ref_qr_leaves rat)
    (@ref_solve_triangular rat) (@ref_expm rat) (2 + 2) 2 (-1)
    U_ex Delta_ex V_ex _ _ _ _ tangent_QR_step).
  rewrite addNr eqxx; exact: erefl.
Qed.

(** C2 at alpha = -1, on the tangent example. *)
Lemma Stiefel_diff_exp_alpha_unchecked_example :
  result (QR_ref (2 + 2) 2) (QR_args_ex U_ex Delta_ex V_ex)
  = Return (QR_ex.1.1.1, QR_ex.1.1.2, QR_ex.1.2, QR_ex.2)
  /\ result (exp_ref (2 + 2) 2 (-1)) (ExpArgs U_ex Delta_ex V_ex)
     = Raise ZeroDivisionError.
Proof.
split; first exact: tangent_QR_step.
rewrite (@Stiefel_diff_exp_alpha_unchecked rat (@ref_qr rat)
  (@ref_qr_leaves rat) (@ref_solve_triangular rat) (@ref_expm rat) (2 + 2) 2
  (-1) U_ex Delta_ex V_ex _ _ _ _ tangent_QR_step).
rewrite eqxx; exact: erefl.
Defined.

(** The claim C2 fails at alpha = -2: below -1 and further than 1e-10 from
    it, the call returns a result, the general combination. *)
Lemma Stiefel_diff_exp_below_minus_one :
  [/\ (-2 : rat) <= -1, (tol < `|-2 : rat|) && (tol < `|-2 + 1 : rat|)
    & result (exp_ref (2 + 2) 2 (-2)) (ExpArgs U_ex Delta_ex V_ex)
      = Return (exp_derivative (@ref_expm rat) (-2) U_ex
                  (2^-1 *: (U_ex^T *m Delta_ex - (U_ex^T *m Delta_ex)^T))
                  (2^-1 *: (U_ex^T *m V_ex - (U_ex^T *m V_ex)^T))
                  QR_ex.1.1.1 QR_ex.1.1.2 QR_ex.1.2 QR_ex.2)].
Proof.
have m21 : (-2 : rat) + 1 = -1 by [].
split.
- by rewrite lerN2 ler1n.
- have lt12 : (1 : rat) < 2 by rewrite ltr1n.
  rewrite m21 normrN normrN1 normr_nat; apply/andP; split.
    exact: lt_trans (tol_lt1 rat) lt12.
  exact: tol_lt1.
- rewrite (@Stiefel_diff_exp_result rat (@ref_qr rat) (@ref_qr_leaves rat)
    (@ref_solve_triangular rat) (@ref_expm rat) (2 + 2) 2 (-2)
    U_ex Delta_ex V_ex _ _ _ _ tangent_QR_step).
  rewrite m21 oppr_eq0 oner_eq0; exact: erefl.
Qed.

Lemma N_ex_sqr : N_ex ^+ 2 = 0.
Proof.
rewrite expr2 -mulmxE; apply/matrixP=> i j.
rewrite !mxE !big_ord_recl big_ord0 !mxE /=.
case: i => [[|[|i]]] //= _; case: j => [[|[|j]]] //= _;
  by rewrite ?mul0r ?mulr0 ?addr0.
Qed.

(** C5 at a nilpotent M, where the series is a finite sum. *)
Lemma diff_expm_block_example :
  let Aux : 'M[rat]_(2 + 2) := block_mx N_ex W_ex 0 N_ex in
  [/\ expm_contract (@ref_expm rat) N_ex,
      expm_contract (@ref_expm rat) Aux
    & exists dexpM : 'M[rat]_2,
        [/\ ref_expm Aux = block_mx (ref_expm N_ex) dexpM 0 (ref_expm N_ex),
            mx_cvg (fun N => expm_series_derivative N N_ex W_ex) dexpM
          & result (diff_expm (@ref_expm rat) 2) (ExpmArgs N_ex W_ex)
            = Return (ulsubmx (ref_expm Aux), ursubmx (ref_expm Aux))
            /\ (ulsubmx (ref_expm Aux), ursubmx (ref_expm Aux))
               = (ref_expm N_ex, dexpM)]].
Proof.
have Nk j : N_ex ^+ j.+2 = 0 by rewrite -(addn2 j) exprD N_ex_sqr mulr0.
have expN : expm_contract (@ref_expm rat) N_ex.
  apply: ref_expm_contract; exact: (Nk 1%N).
have expAux : expm_contract (@ref_expm rat) (block_mx N_ex W_ex 0 N_ex).
  apply: ref_expm_contract; rewrite block_pow Nk.
  rewrite (pow_derivative_nilpotent W_ex 1 N_ex_sqr); exact: block_mx0.
have [dexpM [AuxE cvg _ _ res]] :=
  @diff_expm_block rat (@ref_expm rat) 2 N_ex W_ex expN expAux.
split; [exact: expN | exact: expAux | exists dexpM].
split; [exact: AuxE | exact: cvg | exact: res].
Defined.

(** C3, amended, at the spectrum (2, 1): no divisor is zero. *)
Lemma Stiefel_diff_SVD_unchecked_example :
  let S : 'rV[rat]_2 := two_one rat in
  let V : 'M[rat]_(2, 2 + 0) := 1%:M in
  [/\ nonzero_spectrum S, separated_spectrum S
    & exists dU_bot A dU Alpha dS dV,
        [/\ result (Stiefel_diff_SVD (2 + 2) 2 2 0)
              (SVDArgs V_ex V_ex U_ex' S V)
            = Return (dU_bot, A, dU, Alpha, dS, dV),
            A^T = - A & Alpha^T = - Alpha]].
Proof.
move=> S V.
have S0 : nonzero_spectrum S := two_one_nonzero rat.
have sep : separated_spectrum S := two_one_separated rat.
split; [exact: S0 | exact: sep |].
have [dU_bot [A [dU [Alpha [dS [dV [res skewP]]]]]]] :=
  @Stiefel_diff_SVD_unchecked rat (2 + 2) 2 2 0 V_ex V_ex U_ex' S V.
have [skewA skewAlpha] := skewP S0 sep.
exists dU_bot, A, dU, Alpha, dS, dV.
split; [exact: res | exact: skewA | exact: skewAlpha].
Defined.

(** The claim C3 fails on these two spectra: singular values closer than
    1e-12, and a zero singular value; both calls return. *)
Lemma Stiefel_diff_SVD_degenerate :
  let S1 : 'rV[rat]_2 := near_pair (10%:R ^+ 12)^-1 in
  let S2 : 'rV[rat]_2 := zero_pair rat in
  let V : 'M[rat]_(2, 2 + 0) := 1%:M in
  [/\ `|S1 0 ord0 - S1 0 ord_max| < (10%:R ^+ 12)^-1,
      fails (result (Stiefel_diff_SVD 2 2 2 0)
               (SVDArgs W_ex W_ex 1%:M S1 V)) = false,
      S2 0 ord_max = 0
    & fails (result (Stiefel_diff_SVD 2 2 2 0)
               (SVDArgs W_ex W_ex 1%:M S2 V)) = false].
Proof.
move=> S1 S2 V; split.
- apply: near_pair_gap; rewrite invr_gt0; apply: exprn_gt0; exact: ltr0n.
- exact: Stiefel_diff_SVD_returns.
- exact: zero_pair_zero.
- exact: Stiefel_diff_SVD_returns.
Qed.

(** The claim C6 fails here: after the call the caller's A0 holds the
    factor Q, not the values it held before. *)
Lemma Stiefel_diff_QR_overwrites :
  arg_A0 (after (QR_ref (2 + 2) 2) (QRArgs A0_ex V_ex)) = col_mx 1%:M 0
  /\ arg_A0 (after (QR_ref (2 + 2) 2) (QRArgs A0_ex V_ex)) != A0_ex.
Proof.
have afterE := ref_QR_leaves (r := 2) T_ex V_ex.
split; first exact: afterE.
rewrite afterE; apply/eqP=> /eq_col_mx[/esym/eqP T1 _].
have a1 : (2 : rat) != 1 by [].
by move: T1; apply/negP; apply: mx22_neq1.
Qed.

(** *** Examples of the further properties *)

(** Linearity of the QR derivative in the direction, at A0 = [T; 0]. *)
Lemma Stiefel_diff_QR_linear_example :
  let V2 : 'M[rat]_(2 + 2, 2) := col_mx W_ex 0 in
  let out := QR_derivative (col_mx 1%:M 0) T_ex (invmx T_ex *m 1%:M) in
  [/\ result (QR_ref (2 + 2) 2) (QRArgs A0_ex V_ex)
      = Return (col_mx 1%:M 0, (out V_ex).1.1.2, T_ex, (out V_ex).2),
      result (QR_ref (2 + 2) 2) (QRArgs A0_ex V2)
      = Return (col_mx 1%:M 0, (out V2).1.1.2, T_ex, (out V2).2)
    & result (QR_ref (2 + 2) 2) (QRArgs A0_ex (2 *: V_ex + V2))
      = Return (col_mx 1%:M 0, 2 *: (out V_ex).1.1.2 + (out V2).1.1.2,
                T_ex, 2 *: (out V_ex).2 + (out V2).2)].
Proof.
move=> V2 out.
have H1 := ref_QR_step_components (r := 2) V_ex T_ex_unit.
have H2 := ref_QR_step_components (r := 2) V2 T_ex_unit.
split; [exact: H1 | exact: H2 | exact: (Stiefel_diff_QR_linear 2 H1 H2)].
Defined.

(** A rank-deficient array, A0 = [N; 0] with N = [[0, 1], [0, 0]]. *)
Lemma Stiefel_diff_QR_rank_deficient_example :
  let A0 : 'M[rat]_(2 + 2, 2) := col_mx N_ex 0 in
  [/\ solve_triangular_contract (@ref_solve_triangular rat),
      qr_contract (@ref_qr rat) A0, (2 <= 2 + 2)%N, ~~ row_full A0
    & [/\ result (QR_ref (2 + 2) 2) (QRArgs A0 V_ex) = Raise LinAlgError,
          called (QR_ref (2 + 2) 2) (QRArgs A0 V_ex)
          = [:: Call_qr (2 + 2) 2; Call_solve_triangular 2]
        & after (QR_ref (2 + 2) 2) (QRArgs A0 V_ex)
          = QRArgs (ref_qr_leaves A0) V_ex]].
Proof.
move=> A0.
have solveP := @ref_solve_triangularP rat.
have qrP : qr_contract (@ref_qr rat) A0.
  exact: ref_qr_contract (mx22_upper 0 1 0).
have not_full : ~~ row_full A0.
  exact: rank_deficient_trapezoid (mx22_singular 1 0).
have lepn : (2 <= 2 + 2)%N := isT.
split; [exact: solveP | exact: qrP | exact: lepn | exact: not_full |].
exact: (Stiefel_diff_QR_rank_deficient (@ref_qr_leaves rat) V_ex
          solveP qrP lepn not_full).
Defined.

(** The clean-up loops at the full-rank A0 = [T; 0]. *)
Lemma Stiefel_diff_QR_cleanup_example :
  [/\ solve_triangular_contract (@ref_solve_triangular rat),
      qr_contract (@ref_qr rat) A0_ex, row_full A0_ex
    & let Q := (ref_qr A0_ex).1 in
      let R := (ref_qr A0_ex).2 in
      exists X : 'M[rat]_2,
        let L := select_lower (Q^T *m V_ex *m X) in
        let D := L - L^T in
        [/\ (R *m X = 1%:M /\ X *m R = 1%:M), upper_triangular X,
            upper_triangular (Q^T *m V_ex - D *m R)
          & result (QR_ref (2 + 2) 2) (QRArgs A0_ex V_ex)
            = Return (Q, (V_ex - Q *m (Q^T *m V_ex)) *m X + Q *m D, R,
                      Q^T *m V_ex - D *m R)]].
Proof.
have solveP := @ref_solve_triangularP rat.
have qrP : qr_contract (@ref_qr rat) A0_ex.
  exact: ref_qr_contract (mx22_upper _ _ _).
have fullA : row_full A0_ex by exact: row_full_trapezoid T_ex_unit.
split; [exact: solveP | exact: qrP | exact: fullA |].
exact: (Stiefel_diff_QR_cleanup (@ref_qr_leaves rat) V_ex solveP qrP fullA).
Defined.

(** The direction V = A0 at the full-rank A0 = [T; 0]. *)
Lemma Stiefel_diff_QR_along_base_example :
  [/\ solve_triangular_contract (@ref_solve_triangular rat),
      qr_contract (@ref_qr rat) A0_ex, row_full A0_ex
    & result (QR_ref (2 + 2) 2) (QRArgs A0_ex A0_ex)
      = Return ((ref_qr A0_ex).1, 0, (ref_qr A0_ex).2, (ref_qr A0_ex).2)].
Proof.
have solveP := @ref_solve_triangularP rat.
have qrP : qr_contract (@ref_qr rat) A0_ex.
  exact: ref_qr_contract (mx22_upper _ _ _).
have fullA : row_full A0_ex by exact: row_full_trapezoid T_ex_unit.
split; [exact: solveP | exact: qrP | exact: fullA |].
exact: (Stiefel_diff_QR_along_base (@ref_qr_leaves rat) solveP qrP fullA).
Defined.

(** The projection step at U = [1; 0] and a Delta that is not tangent. *)
Lemma projection_along_U_example :
  let A0 := 2^-1 *: (U_ex'^T *m Delta_ex' - (U_ex'^T *m Delta_ex')^T) in
  let X0 := Delta_ex' - U_ex' *m A0 in
  [/\ U_ex'^T *m U_ex' = 1%:M,
      U_ex'^T *m X0
      = 2^-1 *: (U_ex'^T *m Delta_ex' + (U_ex'^T *m Delta_ex')^T)
    & (X0 == Delta_ex' - U_ex' *m (U_ex'^T *m Delta_ex'))
      = ((U_ex'^T *m Delta_ex')^T == - (U_ex'^T *m Delta_ex'))].
Proof.
move=> A0 X0.
have UTU : U_ex'^T *m U_ex' = 1%:M := @unit_columns rat 2 2.
have [h1 _ h3 _] :=
  @projection_along_U rat (@ref_qr rat) (@ref_qr_leaves rat)
    (@ref_solve_triangular rat) (@ref_expm rat) (2 + 2) 2 0
    U_ex' Delta_ex' V_ex UTU.
split; [exact: UTU | exact: h1 | exact: h3].
Defined.

(** The block matrices of step 1 at alpha = 0, on the tangent example. *)
Lemma exp_blocks_skew_example :
  let A0 := 2^-1 *: (U_ex^T *m Delta_ex - (U_ex^T *m Delta_ex)^T) in
  let dA0 := 2^-1 *: (U_ex^T *m V_ex - (U_ex^T *m V_ex)^T) in
  let M_ := block_mx ((1 / (0 + 1)) *: A0) (- QR_ex.1.2^T) QR_ex.1.2 0 in
  let dM := block_mx ((1 / (0 + 1)) *: dA0) (- QR_ex.2^T) QR_ex.2 0 in
  [/\ result (QR_ref (2 + 2) 2) (QR_args_ex U_ex Delta_ex V_ex)
      = Return (QR_ex.1.1.1, QR_ex.1.1.2, QR_ex.1.2, QR_ex.2),
      (0 : rat) != -1, M_^T = - M_ & dM^T = - dM].
Proof.
move=> A0 dA0 M_ dM.
have neq : (0 : rat) != -1 := zero_neq_opp1 rat.
have [[h1 h2] _ _] :=
  @exp_blocks_skew rat (@ref_qr rat) (@ref_qr_leaves rat)
    (@ref_solve_triangular rat) (@ref_expm rat) (2 + 2) 2 0
    U_ex Delta_ex V_ex _ _ _ _ tangent_QR_step neq.
split; [exact: tangent_QR_step | exact: neq | exact: h1 | exact: h2].
Defined.

(** A tangent Delta = [N; K] at U = [0; 1] whose X0 = [N; 0] is not of
    full column rank. *)
Lemma Stiefel_diff_exp_rank_deficient_example :
  let Delta : 'M[rat]_(2 + 2, 2) := col_mx N_ex K_ex in
  let X0 :=
    Delta - U_ex *m (2^-1 *: (U_ex^T *m Delta - (U_ex^T *m Delta)^T)) in
  [/\ solve_triangular_contract (@ref_solve_triangular rat),
      qr_contract (@ref_qr rat) X0, (2 <= 2 + 2)%N, ~~ row_full X0
    & result (exp_ref (2 + 2) 2 0) (ExpArgs U_ex Delta V_ex)
      = Raise LinAlgError
      /\ called (exp_ref (2 + 2) 2 0) (ExpArgs U_ex Delta V_ex)
         = [:: Call_qr (2 + 2) 2; Call_solve_triangular 2]].
Proof.
move=> Delta X0.
have solveP := @ref_solve_triangularP rat.
have X0E : X0 = col_mx N_ex 0.
  exact: (tangent_X0 N_ex (mx22_skew 1 : K_ex^T = - K_ex)).
have qrP : qr_contract (@ref_qr rat) X0.
  rewrite X0E; exact: ref_qr_contract (mx22_upper 0 1 0).
have not_full : ~~ row_full X0.
  rewrite X0E; exact: rank_deficient_trapezoid (mx22_singular 1 0).
have lepn : (2 <= 2 + 2)%N := isT.
split; [exact: solveP | exact: qrP | exact: lepn | exact: not_full |].
exact: (Stiefel_diff_exp_rank_deficient (@ref_qr_leaves rat) (@ref_expm rat)
          0 V_ex solveP qrP lepn not_full).
Defined.

(** Delta = 0 at U = [0; 1]. *)
Lemma Stiefel_diff_exp_zero_tangent_example :
  [/\ solve_triangular_contract (@ref_solve_triangular rat),
      qr_contract (@ref_qr rat) (0 : 'M[rat]_(2 + 2, 2)),
      (0 < 2 <= 2 + 2)%N
    & result (exp_ref (2 + 2) 2 0) (ExpArgs U_ex 0 V_ex)
      = Raise LinAlgError].
Proof.
have solveP := @ref_solve_triangularP rat.
have qrP : qr_contract (@ref_qr rat) (0 : 'M[rat]_(2 + 2, 2)).
  exact: ref_qr_contract0.
have bounds : (0 < 2 <= 2 + 2)%N := isT.
split; [exact: solveP | exact: qrP | exact: bounds |].
exact: (Stiefel_diff_exp_zero_tangent (@ref_qr_leaves rat) (@ref_expm rat)
          0 U_ex V_ex solveP qrP bounds).
Defined.

(** n = p = 2: U the identity and a skew Delta. *)
Lemma Stiefel_diff_exp_narrow_example :
  let U : 'M[rat]_(2 + 0, 2) := col_mx 1%:M 0 in
  let Delta : 'M[rat]_(2 + 0, 2) := col_mx K_ex 0 in
  let V : 'M[rat]_(2 + 0, 2) := col_mx W_ex 0 in
  let X0 := Delta - U *m (2^-1 *: (U^T *m Delta - (U^T *m Delta)^T)) in
  [/\ solve_triangular_contract (@ref_solve_triangular rat),
      qr_contract (@ref_qr rat) X0, U^T *m U = 1%:M,
      (U^T *m Delta)^T = - (U^T *m Delta)
    & (2 <= 2 + 0 < 2 + 2)%N
      /\ result (exp_ref (2 + 0) 2 0) (ExpArgs U Delta V)
         = Raise LinAlgError].
Proof.
move=> U Delta V X0.
have solveP := @ref_solve_triangularP rat.
have [skewD X0E] :=
  tangent_along_U 0 (mx22_skew 1 : K_ex^T = - K_ex).
have qrP : qr_contract (@ref_qr rat) X0.
  rewrite /X0 /U /Delta X0E; exact: ref_qr_contract0.
have UTU : U^T *m U = 1%:M := @unit_columns rat 2 0.
have bounds : (2 <= 2 + 0 < 2 + 2)%N := isT.
split; [exact: solveP | exact: qrP | exact: UTU | exact: skewD |].
split; first exact: bounds.
exact: (Stiefel_diff_exp_narrow (@ref_qr_leaves rat) (@ref_expm rat)
          0 V solveP qrP UTU skewD bounds).
Defined.

(** Linearity of [diff_expm] in the direction, at the nilpotent N. *)
Lemma diff_expm_linear_example :
  [/\ expm_contract (@ref_expm rat) (block_mx N_ex W_ex 0 N_ex),
      expm_contract (@ref_expm rat) (block_mx N_ex K_ex 0 N_ex),
      expm_contract (@ref_expm rat)
        (block_mx N_ex (2 *: W_ex + K_ex) 0 N_ex)
    & exists E d1 d2 : 'M[rat]_2,
        [/\ result (diff_expm (@ref_expm rat) 2) (ExpmArgs N_ex W_ex)
            = Return (E, d1),
            result (diff_expm (@ref_expm rat) 2) (ExpmArgs N_ex K_ex)
            = Return (E, d2)
          & result (diff_expm (@ref_expm rat) 2)
              (ExpmArgs N_ex (2 *: W_ex + K_ex))
            = Return (E, 2 *: d1 + d2)]].
Proof.
have h1 := ref_expm_contract_block W_ex N_ex_sqr.
have h2 := ref_expm_contract_block K_ex N_ex_sqr.
have h3 := ref_expm_contract_block (2 *: W_ex + K_ex) N_ex_sqr.
split; [exact: h1 | exact: h2 | exact: h3 |].
exact: (diff_expm_linear h1 h2 h3).
Defined.

(** The direction dM = N commutes with M = N. *)
Lemma diff_expm_commuting_example :
  [/\ N_ex *m N_ex = N_ex *m N_ex,
      expm_contract (@ref_expm rat) N_ex,
      expm_contract (@ref_expm rat) (block_mx N_ex N_ex 0 N_ex)
    & result (diff_expm (@ref_expm rat) 2) (ExpmArgs N_ex N_ex)
      = Return (ref_expm N_ex, ref_expm N_ex *m N_ex)].
Proof.
have comm : N_ex *m N_ex = N_ex *m N_ex := erefl.
have h1 := ref_expm_contract_sqr0 N_ex_sqr.
have h2 := ref_expm_contract_block N_ex N_ex_sqr.
split; [exact: comm | exact: h1 | exact: h2 |].
exact: (diff_expm_commuting comm h1 h2).
Defined.

(** M = 0 and the direction W. *)
Lemma diff_expm_at_zero_example :
  expm_contract (@ref_expm rat) (block_mx 0 W_ex 0 0)
  /\ result (diff_expm (@ref_expm rat) 2) (ExpmArgs 0 W_ex)
     = Return (1%:M, W_ex).
Proof.
have h := ref_expm_contract_block W_ex (zero_sqr0 rat).
split; first exact: h.
exact: (diff_expm_at_zero h).
Defined.

(** The product rule with a full V: p = 1 of the m = 2 right singular
    vectors kept, U = e1, S = (2). *)
Lemma Stiefel_diff_SVD_product_rule_example :
  let U : 'M[rat]_(1 + 1, 1) := col_mx 1%:M 0 in
  let S : 'rV[rat]_1 := const_mx 2 in
  let V : 'M[rat]_(2, 1 + 1) := 1%:M in
  [/\ nonzero_spectrum S, separated_spectrum S
    & exists dU_bot A dU Alpha dS dV,
        result (Stiefel_diff_SVD (1 + 1) 2 1 1) (SVDArgs W_ex W_ex U S V)
        = Return (dU_bot, A, dU, Alpha, dS, dV)
        /\ dU *m diag_mx S *m (lsubmx V)^T + U *m diag_mx dS *m (lsubmx V)^T
           + U *m diag_mx S *m dV^T
           = W_ex *m lsubmx V *m (lsubmx V)^T
             + (if (2 == 1 + 1)%N && (1 < 2)%N
                then U *m U^T *m W_ex *m rsubmx V *m (rsubmx V)^T else 0)].
Proof.
move=> U S V.
have S0 : nonzero_spectrum S := const_nonzero 1 (two_neq0 rat).
have sep : separated_spectrum S := single_separated S.
split; [exact: S0 | exact: sep |].
exact: (Stiefel_diff_SVD_product_rule W_ex W_ex U V S0 sep).
Defined.

(** The module's own check, thin case: U = [1; 0], S = (2, 1) and the
    square V = 1. *)
Lemma Stiefel_diff_SVD_reconstruction_example :
  let S : 'rV[rat]_2 := two_one rat in
  let V : 'M[rat]_(2, 2 + 0) := 1%:M in
  [/\ nonzero_spectrum S, separated_spectrum S, (2 == 2 + 0)%N,
      V *m V^T = 1%:M
    & U_ex' *m U_ex'^T *m V_ex *m rsubmx V = V_ex *m rsubmx V
      /\ exists dU_bot A dU Alpha dS dV,
           result (Stiefel_diff_SVD (2 + 2) 2 2 0)
             (SVDArgs V_ex V_ex U_ex' S V)
           = Return (dU_bot, A, dU, Alpha, dS, dV)
           /\ dU *m diag_mx S *m (lsubmx V)^T
              + U_ex' *m diag_mx dS *m (lsubmx V)^T
              + U_ex' *m diag_mx S *m dV^T = V_ex].
Proof.
move=> S V.
have S0 : nonzero_spectrum S := two_one_nonzero rat.
have sep : separated_spectrum S := two_one_separated rat.
have mE : (2 == 2 + 0)%N := isT.
have VVT : V *m V^T = 1%:M := (identity_orthogonal rat 2).1.
have range : U_ex' *m U_ex'^T *m V_ex *m rsubmx V = V_ex *m rsubmx V.
  exact: empty_columns.
split; [exact: S0 | exact: sep | exact: mE | exact: VVT |].
split; first exact: range.
exact: (Stiefel_diff_SVD_reconstruction V_ex S0 sep mE VVT range).
Defined.

(** dU is tangent at U = [1; 0]. *)
Lemma Stiefel_diff_SVD_tangent_example :
  let S : 'rV[rat]_2 := two_one rat in
  let V : 'M[rat]_(2, 2 + 0) := 1%:M in
  [/\ U_ex'^T *m U_ex' = 1%:M, nonzero_spectrum S, separated_spectrum S
    & exists dU_bot A dU Alpha dS dV,
        [/\ result (Stiefel_diff_SVD (2 + 2) 2 2 0)
              (SVDArgs V_ex V_ex U_ex' S V)
            = Return (dU_bot, A, dU, Alpha, dS, dV),
            U_ex'^T *m dU_bot = 0, U_ex'^T *m dU = A,
            (U_ex'^T *m dU)^T = - (U_ex'^T *m dU)
          & dU = dU_bot + U_ex' *m A]].
Proof.
move=> S V.
have UTU : U_ex'^T *m U_ex' = 1%:M := @unit_columns rat 2 2.
have S0 : nonzero_spectrum S := two_one_nonzero rat.
have sep : separated_spectrum S := two_one_separated rat.
split; [exact: UTU | exact: S0 | exact: sep |].
exact: (Stiefel_diff_SVD_tangent V_ex V_ex V UTU S0 sep).
Defined.

(** dV is tangent at V = 1. *)
Lemma Stiefel_diff_SVD_dV_tangent_example :
  let S : 'rV[rat]_2 := two_one rat in
  let V : 'M[rat]_(2, 2 + 0) := 1%:M in
  [/\ V^T *m V = 1%:M, nonzero_spectrum S, separated_spectrum S
    & exists dU_bot A dU Alpha dS dV,
        [/\ result (Stiefel_diff_SVD (2 + 2) 2 2 0)
              (SVDArgs V_ex V_ex U_ex' S V)
            = Return (dU_bot, A, dU, Alpha, dS, dV),
            (lsubmx V)^T *m dV = Alpha
          & Alpha^T = - Alpha]].
Proof.
move=> S V.
have VTV : V^T *m V = 1%:M := (identity_orthogonal rat 2).2.
have S0 : nonzero_spectrum S := two_one_nonzero rat.
have sep : separated_spectrum S := two_one_separated rat.
split; [exact: VTV | exact: S0 | exact: sep |].
exact: (Stiefel_diff_SVD_dV_tangent V_ex V_ex U_ex' VTV S0 sep).
Defined.

End Examples.
